(** * arp-scan-X: a shallow embedding of [arp/arp.go]

    The development follows the Go source function by function:
    [IfaceToName], the validation prologue of [Scan], [readARP],
    [writeARP] and [ips].  Byte slices are lists of bytes, 32-bit unsigned
    integers are [Z] with the wrap-around written out, Go errors are
    strings, and the two goroutines of a scan (the coordinator running
    [Scan] and the listener running [readARP]) are a transition system
    driven by an explicit schedule. *)

From Stdlib Require Import ZArith String Ascii Bool List Lia.
From coqutil Require Import Byte Z.bitblast.
From Equations Require Import Equations.
Import ListNotations.

Local Open Scope Z_scope.

(** ** Byte slices and [encoding/binary] *)

Definition bytes := list byte.

Definition bytes_eq_dec : forall a b : bytes, {a = b} + {a <> b} :=
  list_eq_dec Byte.byte_eq_dec.

(** [bytes.Equal]: two slices are equal when they have the same length and
    the same contents (a nil slice equals an empty one). *)
Definition bytes_Equal (a b : bytes) : bool :=
  if bytes_eq_dec a b then true else false.

Definition maxUint32 : Z := 0xffffffff.

(** [uint32] arithmetic wraps modulo 2^32. *)
Definition wrap32 (z : Z) : Z := z mod 2 ^ 32.

(** [binary.BigEndian.Uint32]: reads the first four bytes; a shorter slice
    makes the index expression [b[3]] panic, which is [None] here. *)
Definition Uint32 (b : bytes) : option Z :=
  match b with
  | b0 :: b1 :: b2 :: b3 :: _ =>
      Some (Z.lor (Z.lor (Z.lor (byte.unsigned b3)
                                (Z.shiftl (byte.unsigned b2) 8))
                         (Z.shiftl (byte.unsigned b1) 16))
                  (Z.shiftl (byte.unsigned b0) 24))
  | _ => None
  end.

(** [binary.BigEndian.PutUint32] into a fresh [[4]byte] buffer. *)
Definition PutUint32 (v : Z) : bytes :=
  [ byte.of_Z (Z.shiftr v 24); byte.of_Z (Z.shiftr v 16);
    byte.of_Z (Z.shiftr v 8); byte.of_Z v ].

(** ** Errors and results *)

(** A Go [error] value is represented by its message. *)
Definition error := string.

(** The two results of a Go call returning [(T, error)]. *)
Inductive result (A : Type) : Type :=
| Ok (a : A)
| Err (e : error).
Arguments Ok {A} a.
Arguments Err {A} e.

(** A computation that may end in a run-time panic (an index or a slice
    bound out of range). *)
Inductive outcome (A : Type) : Type :=
| Return (a : A)
| Panic.
Arguments Return {A} a.
Arguments Panic {A}.

Definition bind {A B : Type} (m : outcome A) (k : A -> outcome B) : outcome B :=
  match m with
  | Return a => k a
  | Panic => Panic
  end.

Notation "x <- m ;; k" := (bind m (fun x => k))
  (at level 61, m at next level, right associativity).

(** The index expression [s[i]]. *)
Definition index (s : bytes) (i : nat) : outcome byte :=
  match nth_error s i with
  | Some b => Return b
  | None => Panic
  end.

(** ** [net] data *)

Definition IP := bytes.
Definition IPMask := bytes.
Definition HardwareAddr := bytes.

Record IPNet : Type := mkIPNet { ipnIP : IP; ipnMask : IPMask }.

(** [net.Interface], with the two fields the program reads. *)
Record Interface : Type := mkInterface {
  ifName : string;
  ifHardwareAddr : HardwareAddr
}.

(** A [net.Addr] is an interface value: a [*net.IPNet] or some other
    implementation (for instance [*net.IPAddr]). *)
Inductive Addr : Type :=
| AddrIPNet (n : IPNet)
| AddrOther.

Definition isZeros (p : bytes) : bool :=
  forallb (fun b => Byte.eqb b Byte.x00) p.

(** [net.IP.To4]: a 4-byte address is returned as it is, a 16-byte
    IPv4-mapped address gives its last four bytes, anything else nil. *)
Definition To4 (ip : IP) : option IP :=
  if (length ip =? 4)%nat then Some ip
  else if ((length ip =? 16)%nat
           && isZeros (firstn 10 ip)
           && Byte.eqb (nth 10 ip Byte.x00) Byte.xff
           && Byte.eqb (nth 11 ip Byte.x00) Byte.xff)%bool
       then Some (skipn 12 ip)
       else None.

(** The host as [net.Interfaces] reports it. *)
Record Host : Type := mkHost { Interfaces : result (list Interface) }.

Definition errInvalidInterfaceName : error :=
  "route ip+net: invalid network interface name"%string.
Definition errNoSuchInterface : error :=
  "route ip+net: no such network interface"%string.

(** [net.InterfaceByName]: the empty name is refused, otherwise the
    interface table is read and searched for the name. *)
Definition InterfaceByName (h : Host) (name : string) : result Interface :=
  if String.eqb name EmptyString then Err errInvalidInterfaceName
  else match Interfaces h with
       | Err e => Err e
       | Ok ift =>
           match find (fun ifi => String.eqb name (ifName ifi)) ift with
           | Some ifi => Ok ifi
           | None => Err errNoSuchInterface
           end
       end.

(** ** [IfaceToName] *)

(** [strings.Split(s, sep)] for a one-byte separator. *)
Fixpoint Split (s : string) (sep : ascii) : list string :=
  match s with
  | EmptyString => [EmptyString]
  | String c s' =>
      if Ascii.eqb c sep then EmptyString :: Split s' sep
      else match Split s' sep with
           | piece :: pieces => String c piece :: pieces
           | [] => [String c EmptyString]
           end
  end.

(** [fmt.Errorf("interface %v: unkown", interfaceName)]. *)
Definition errUnknownInterface (interfaceName : string) : error :=
  ("interface " ++ interfaceName ++ ": unkown")%string.

(** The validation loop of [IfaceToName]. *)
Fixpoint IfaceToName_loop (h : Host) (names : list string) : option error :=
  match names with
  | [] => None
  | interfaceName :: rest =>
      match InterfaceByName h interfaceName with
      | Err _ => Some (errUnknownInterface interfaceName)
      | Ok _ => IfaceToName_loop h rest
      end
  end.

Definition IfaceToName (h : Host) (interfaceNames : string)
  : list string * option error :=
  if String.eqb interfaceNames "all" then
    match Interfaces h with
    | Err err => ([], Some err)
    | Ok ifaces => (map ifName ifaces, None)
    end
  else
    let r := Split interfaceNames ","%char in
    (r, IfaceToName_loop h r).

(** ** [ips] *)

(** Number of turns the loop of [ips] still has to make. *)
Definition ips_left (mask : Z) : nat := Z.to_nat (maxUint32 - mask).

#[local] Opaque ips_left maxUint32 wrap32.
#[local] Obligation Tactic := idtac.

(** The loop of [ips]: [for mask < 0xffffffff { out = append(out, num);
    mask++; num++ }], both counters being [uint32]. *)
Equations? ips_loop (mask num : Z) (out : list IP) : list IP
  by wf (ips_left mask) lt :=
  ips_loop mask num out with Z_lt_dec mask maxUint32 => {
    | left _ => ips_loop (wrap32 (mask + 1)) (wrap32 (num + 1))
                         (out ++ [PutUint32 num]);
    | right _ => out }.
Proof.
  with_strategy transparent [ips_left maxUint32 wrap32]
    (unfold ips_left, wrap32, maxUint32 in *).
  destruct (Z_lt_dec mask 0) as [Hneg | Hpos].
  - pose proof (Z.mod_pos_bound (mask + 1) (2 ^ 32) eq_refl). lia.
  - rewrite Z.mod_small by lia. lia.
Qed.

#[local] Transparent ips_left maxUint32 wrap32.

(** [ips]: address and mask are read as 32-bit numbers, the address is
    masked and the loop is run; [Panic] stands for the panic of [Uint32] on
    a slice shorter than four bytes. *)
Definition ips (n : IPNet) : outcome (list IP) :=
  match Uint32 (ipnIP n), Uint32 (ipnMask n) with
  | Some num, Some mask => Return (ips_loop mask (Z.land num mask) [])
  | _, _ => Panic
  end.

Definition ip4 (a b c d : Z) : IP :=
  [byte.of_Z a; byte.of_Z b; byte.of_Z c; byte.of_Z d].

(** ** Frames: the [gopacket] layers the program builds and reads *)

Record Ethernet : Type := mkEthernet {
  SrcMAC : HardwareAddr;
  DstMAC : HardwareAddr;
  EthernetType : Z
}.

Record ARP : Type := mkARP {
  AddrType : Z;
  Protocol : Z;
  HwAddressSize : Z;
  ProtAddressSize : Z;
  Operation : Z;
  SourceHwAddress : bytes;
  SourceProtAddress : bytes;
  DstHwAddress : bytes;
  DstProtAddress : bytes
}.

Definition LinkTypeEthernet : Z := 1.
Definition EthernetTypeIPv4 : Z := 0x0800.
Definition EthernetTypeARP : Z := 0x0806.
Definition ARPRequest : Z := 1.
Definition ARPReply : Z := 2.

(** A decoded packet is the list of its layers. *)
Inductive Layer : Type :=
| LayerEthernet (eth : Ethernet)
| LayerARP (arp : ARP)
| LayerOther (payload : bytes).

Definition Packet := list Layer.

(** [packet.Layer(layers.LayerTypeARP)]: the first ARP layer, or nil. *)
Fixpoint Layer_ARP (packet : Packet) : option ARP :=
  match packet with
  | [] => None
  | LayerARP arp :: _ => Some arp
  | _ :: rest => Layer_ARP rest
  end.

(** ** The result table *)

Record arpTable : Type := mkArpTable {
  tabIP : IP;
  tabHardwareAddr : HardwareAddr
}.

Definition arpTables := list arpTable.

(** ** [readARP]: what the listener does with one received packet *)

Definition readARP_packet (iface : Interface) (table : arpTables)
  (packet : Packet) : arpTables :=
  match Layer_ARP packet with
  | None => table
  | Some arp =>
      if (negb (Operation arp =? ARPReply)
          || bytes_Equal (ifHardwareAddr iface) (SourceHwAddress arp))%bool
      then table
      else table ++ [mkArpTable (SourceProtAddress arp) (SourceHwAddress arp)]
  end.

(** ** The validation prologue of [Scan] *)

Definition errNoMAC : error := "Could not obtain MAC address"%string.
Definition errNoNetwork : error := "no good IP network found"%string.
Definition errLocalhost : error := "skipping localhost"%string.
Definition errTooLarge : error := "mask means network is too large"%string.

(** The slice expression [m[len(m)-4:]]. *)
Definition lastFour (m : bytes) : outcome bytes :=
  if (length m <? 4)%nat then Panic
  else Return (skipn (length m - 4) m).

(** The search loop of [Scan]: the first address that is a [*net.IPNet]
    with an IPv4 form is taken, its mask cut to the last four bytes. *)
Fixpoint Scan_findAddr (addrs : list Addr) : outcome (option IPNet) :=
  match addrs with
  | [] => Return None
  | AddrIPNet ipnet :: rest =>
      match To4 (ipnIP ipnet) with
      | Some ip =>
          mask <- lastFour (ipnMask ipnet) ;;
          Return (Some (mkIPNet ip mask))
      | None => Scan_findAddr rest
      end
  | AddrOther :: rest => Scan_findAddr rest
  end.

(** The checks of [Scan], in the order of the source: the hardware address
    first, then the address found, loopback, and the mask. *)
Definition Scan_check (iface : Interface) (addr : option IPNet)
  : outcome (result IPNet) :=
  if (length (ifHardwareAddr iface) =? 0)%nat then Return (Err errNoMAC)
  else
    match addr with
    | None => Return (Err errNoNetwork)
    | Some addr =>
        ip0 <- index (ipnIP addr) 0 ;;
        if Byte.eqb ip0 Byte.x7f then Return (Err errLocalhost)
        else
          m0 <- index (ipnMask addr) 0 ;;
          if negb (Byte.eqb m0 Byte.xff) then Return (Err errTooLarge)
          else
            m1 <- index (ipnMask addr) 1 ;;
            if negb (Byte.eqb m1 Byte.xff) then Return (Err errTooLarge)
            else Return (Ok addr)
    end.

(** [Scan] up to the log line "Using network range": [addrs] is what
    [a.iface.Addrs()] returned. *)
Definition Scan_prologue (iface : Interface) (addrs : result (list Addr))
  : outcome (result IPNet) :=
  match addrs with
  | Err err => Return (Err err)
  | Ok addrs =>
      addr <- Scan_findAddr addrs ;;
      Scan_check iface addr
  end.

(** ** The capture device *)

(** The operations of [pcap] and [gopacket] the program calls: a handle
    whose [WritePacketData] may fail, and the serialization of an Ethernet
    and an ARP layer into the bytes of a frame. *)
Class Capture : Type := {
  Handle : Type;
  WritePacketData : Handle -> bytes -> Handle * option error;
  SerializeLayers : Ethernet -> ARP -> bytes
}.

Section Model.

Context {capture : Capture}.

(** ** [writeARP] *)

Definition writeARP_eth (iface : Interface) : Ethernet :=
  mkEthernet (ifHardwareAddr iface)
             [Byte.xff; Byte.xff; Byte.xff; Byte.xff; Byte.xff; Byte.xff]
             EthernetTypeARP.

(** The request template with its target protocol address set to [ip]. *)
Definition writeARP_arp (iface : Interface) (addr : IPNet) (ip : IP) : ARP :=
  mkARP LinkTypeEthernet EthernetTypeIPv4 6 4 ARPRequest
        (ifHardwareAddr iface) (ipnIP addr)
        [Byte.x00; Byte.x00; Byte.x00; Byte.x00; Byte.x00; Byte.x00]
        ip.

Definition writeARP_frame (iface : Interface) (addr : IPNet) (ip : IP) : bytes :=
  SerializeLayers (writeARP_eth iface) (writeARP_arp iface addr ip).

(** The loop of [writeARP] over the candidates; [wire] lists the frames
    handed to [WritePacketData] so far, in order. *)
Fixpoint writeARP_loop (iface : Interface) (addr : IPNet)
  (handle : Handle) (wire : list bytes) (candidates : list IP)
  : Handle * list bytes * option error :=
  match candidates with
  | [] => (handle, wire, None)
  | ip :: rest =>
      let frame := writeARP_frame iface addr ip in
      match WritePacketData handle frame with
      | (handle', Some err) => (handle', wire ++ [frame], Some err)
      | (handle', None) => writeARP_loop iface addr handle' (wire ++ [frame]) rest
      end
  end.

Definition writeARP (handle : Handle) (iface : Interface) (addr : IPNet)
  : outcome (Handle * list bytes * option error) :=
  candidates <- ips addr ;;
  Return (writeARP_loop iface addr handle [] candidates).

(** ** [Scan] and [readARP] as two goroutines *)

(** What a scan is given by its environment. *)
Record ScanEnv : Type := mkScanEnv {
  envIface : Interface;
  envAddrs : result (list Addr);
  envOpenLive : result Handle
}.

(** Where the coordinator (the goroutine running [Scan]) stands: before
    its first statement; in the loop of [writeARP] with the candidates
    still to do; after a failed write; before [time.Sleep]; blocked in
    [stop <- true]; past it; with the results formed and the deferred
    [close(stop)], then [handle.Close()], still to run; returned. *)
Inductive coord : Type :=
| CStart
| CWrite (handle : Handle) (addr : IPNet) (todo : list IP)
| CFail (handle : Handle) (err : error)
| CSleep (handle : Handle)
| CSend (handle : Handle)
| CSent (handle : Handle)
| CCloseStop (handle : Handle) (ret : arpTables * option error)
| CCloseHandle (handle : Handle) (ret : arpTables * option error)
| CDone (ret : arpTables * option error)
| CPanic.

(** Where the listener (the goroutine running [readARP]) stands. *)
Inductive listener : Type :=
| LIdle
| LRun
| LExit.

(** The state of a scan: where the two goroutines stand, the shared
    variable [at] of [Scan] ([table]), whether [stop] has been closed, and
    two logs: the frames handed to [WritePacketData] ([wire]) and the
    packets the listener has taken from the packet source ([heard]). *)
Record config : Type := mkConfig {
  co : coord;
  li : listener;
  table : arpTables;
  stopClosed : bool;
  wire : list bytes;
  heard : list Packet
}.

Definition init : config := mkConfig CStart LIdle [] false [] [].

(** The scheduler picks the coordinator's next statement, or one turn of
    the listener's [select]: a packet from the packet source, or the
    receive from [stop]. *)
Inductive event : Type :=
| Coord
| Recv (packet : Packet)
| RecvStop.

Definition set_co (c : config) (k : coord) : config :=
  mkConfig k (li c) (table c) (stopClosed c) (wire c) (heard c).

(** [Scan] from its first line to the first turn of the loop of
    [writeARP]: the prologue, [pcap.OpenLive], [go readARP], the deferred
    [close(stop)] and the call of [ips]. *)
Definition Scan_begin (env : ScanEnv) (c : config) : config :=
  match Scan_prologue (envIface env) (envAddrs env) with
  | Panic => set_co c CPanic
  | Return (Err err) => set_co c (CDone (table c, Some err))
  | Return (Ok addr) =>
      match envOpenLive env with
      | Err err => set_co c (CDone (table c, Some err))
      | Ok handle =>
          match ips addr with
          | Panic => mkConfig CPanic LRun (table c) (stopClosed c) (wire c) (heard c)
          | Return candidates =>
              mkConfig (CWrite handle addr candidates) LRun
                       (table c) (stopClosed c) (wire c) (heard c)
          end
      end
  end.

Definition step_coord (env : ScanEnv) (c : config) : config :=
  match co c with
  | CStart => Scan_begin env c
  | CWrite handle addr [] => set_co c (CSleep handle)
  | CWrite handle addr (ip :: rest) =>
      let frame := writeARP_frame (envIface env) addr ip in
      match WritePacketData handle frame with
      | (handle', Some err) =>
          mkConfig (CFail handle' err) (li c) (table c) (stopClosed c)
                   (wire c ++ [frame]) (heard c)
      | (handle', None) =>
          mkConfig (CWrite handle' addr rest) (li c) (table c) (stopClosed c)
                   (wire c ++ [frame]) (heard c)
      end
  | CFail handle err => set_co c (CCloseStop handle (table c, Some err))
  | CSleep handle => set_co c (CSend handle)
  | CSend handle => c
  | CSent handle => set_co c (CCloseStop handle (table c, None))
  | CCloseStop handle ret =>
      mkConfig (CCloseHandle handle ret) (li c) (table c) true (wire c) (heard c)
  | CCloseHandle handle ret => set_co c (CDone ret)
  | CDone ret => c
  | CPanic => c
  end.

(** The packet case of the [select] in [readARP].  The packet source is
    taken to deliver packets only: its channel is not closed while the
    listener runs. *)
Definition step_recv (env : ScanEnv) (c : config) (packet : Packet) : config :=
  match li c with
  | LRun =>
      mkConfig (co c) LRun (readARP_packet (envIface env) (table c) packet)
               (stopClosed c) (wire c) (heard c ++ [packet])
  | _ => c
  end.

(** The [<-stop] case: it completes the coordinator's [stop <- true] when
    the coordinator is blocked in it, and it is ready as well once [stop]
    has been closed. *)
Definition step_stop (c : config) : config :=
  match li c with
  | LRun =>
      match co c with
      | CSend handle =>
          mkConfig (CSent handle) LExit (table c) (stopClosed c) (wire c) (heard c)
      | _ =>
          if stopClosed c
          then mkConfig (co c) LExit (table c) (stopClosed c) (wire c) (heard c)
          else c
      end
  | _ => c
  end.

Definition step (env : ScanEnv) (c : config) (e : event) : config :=
  match e with
  | Coord => step_coord env c
  | Recv packet => step_recv env c packet
  | RecvStop => step_stop c
  end.

Definition run (env : ScanEnv) (c : config) (schedule : list event) : config :=
  fold_left (step env) schedule c.

(** The configuration a scan reaches under a schedule, and what [Scan]
    has returned there, if it has. *)
Definition Scan (env : ScanEnv) (schedule : list event) : config :=
  run env init schedule.

Definition returned (c : config) : option (arpTables * option error) :=
  match co c with
  | CDone ret => Some ret
  | _ => None
  end.

(** The entries the listener collects from a sequence of packets. *)
Definition collect (iface : Interface) (packets : list Packet) : arpTables :=
  fold_left (readARP_packet iface) packets [].

(** Every frame for the addresses [ips] is written without error, which
    takes the device from [handle] to [handle']. *)
Inductive all_written (iface : Interface) (addr : IPNet)
  : Handle -> list IP -> Handle -> Prop :=
| all_written_nil (handle : Handle) :
    all_written iface addr handle [] handle
| all_written_cons (handle handle1 handle2 : Handle) (ip : IP) (rest : list IP) :
    WritePacketData handle (writeARP_frame iface addr ip) = (handle1, None) ->
    all_written iface addr handle1 rest handle2 ->
    all_written iface addr handle (ip :: rest) handle2.

(** What [writeARP] leaves behind when it ends with [err]: without error a
    frame was written for every candidate; with an error the frames of the
    candidates up to the first failing write, it included, and none for a
    later candidate. *)
Definition stops_at_first_error (iface : Interface) (addr : IPNet)
  (handle : Handle) (candidates : list IP)
  (handle' : Handle) (frames : list bytes) (err : option error) : Prop :=
  match err with
  | None =>
      frames = map (writeARP_frame iface addr) candidates
      /\ all_written iface addr handle candidates handle'
  | Some e =>
      exists pre ip post handle1,
        candidates = pre ++ ip :: post
        /\ all_written iface addr handle pre handle1
        /\ WritePacketData handle1 (writeARP_frame iface addr ip) = (handle', Some e)
        /\ frames = map (writeARP_frame iface addr) (pre ++ [ip])
  end.

(** ** What holds of every configuration a scan can reach *)

(** The scan got past its checks and opened the device. *)
Definition started (env : ScanEnv) (handle : Handle) (addr : IPNet)
  (candidates : list IP) : Prop :=
  Scan_prologue (envIface env) (envAddrs env) = Return (Ok addr)
  /\ envOpenLive env = Ok handle
  /\ ips addr = Return candidates.

(** The scan ended before the listener was started, with [err]. *)
Definition early (env : ScanEnv) (err : error) : Prop :=
  Scan_prologue (envIface env) (envAddrs env) = Return (Err err)
  \/ (exists addr,
        Scan_prologue (envIface env) (envAddrs env) = Return (Ok addr)
        /\ envOpenLive env = Err err).

(** [writeARP] has run to its end: it wrote [frames] and returned [err]. *)
Definition wrote (env : ScanEnv) (frames : list bytes) (handle' : Handle)
  (err : option error) : Prop :=
  exists handle addr candidates,
    started env handle addr candidates
    /\ writeARP_loop (envIface env) addr handle [] candidates
       = (handle', frames, err).

(** What the coordinator read from the table when it formed its result:
    after the exchange on [stop] the whole table; on a write error the
    entries of the packets heard until then. *)
Definition read_ok (env : ScanEnv) (l : listener) (tab : arpTables)
  (packets : list Packet) (ret : arpTables * option error) : Prop :=
  match snd ret with
  | None => l = LExit /\ tab = fst ret
  | Some _ =>
      l <> LIdle
      /\ exists k, (k <= length packets)%nat
                   /\ fst ret = collect (envIface env) (firstn k packets)
  end.

Definition Inv (env : ScanEnv) (c : config) : Prop :=
  table c = collect (envIface env) (heard c)
  /\ match co c with
     | CStart =>
         li c = LIdle /\ wire c = [] /\ heard c = [] /\ stopClosed c = false
     | CWrite handle' addr todo =>
         li c = LRun /\ stopClosed c = false
         /\ exists handle candidates,
              started env handle addr candidates
              /\ writeARP_loop (envIface env) addr handle' (wire c) todo
                 = writeARP_loop (envIface env) addr handle [] candidates
     | CFail handle' err =>
         li c = LRun /\ stopClosed c = false
         /\ wrote env (wire c) handle' (Some err)
     | CSleep handle' | CSend handle' =>
         li c = LRun /\ stopClosed c = false
         /\ wrote env (wire c) handle' None
     | CSent handle' =>
         li c = LExit /\ stopClosed c = false
         /\ wrote env (wire c) handle' None
     | CCloseStop handle' ret =>
         stopClosed c = false
         /\ wrote env (wire c) handle' (snd ret)
         /\ read_ok env (li c) (table c) (heard c) ret
     | CCloseHandle handle' ret =>
         stopClosed c = true
         /\ wrote env (wire c) handle' (snd ret)
         /\ read_ok env (li c) (table c) (heard c) ret
     | CDone ret =>
         (li c = LIdle /\ wire c = [] /\ heard c = [] /\ fst ret = []
          /\ exists err, snd ret = Some err /\ early env err)
         \/ (stopClosed c = true
             /\ (exists handle', wrote env (wire c) handle' (snd ret))
             /\ read_ok env (li c) (table c) (heard c) ret)
     | CPanic => wire c = []
     end.

(** The coordinator is past the exchange on [stop]: its [stop <- true] has
    completed, or it has formed the result of a scan without error. *)
Definition after_rendezvous (k : coord) : Prop :=
  match k with
  | CSent _ => True
  | CCloseStop _ (_, None) => True
  | CCloseHandle _ (_, None) => True
  | CDone (_, None) => True
  | _ => False
  end.

Definition after_rendezvous_dec (k : coord) :
  {after_rendezvous k} + {~ after_rendezvous k}.
Proof.
  destruct k as [| h a todo | h err | h | h | h | h [t [e |]] | h [t [e |]]
                 | [t [e |]] |]; cbn; auto.
Defined.

End Model.

(** ** Names the host knows *)

(** [name] is the name of an interface of the host. *)
Definition known (h : Host) (name : string) : Prop :=
  name <> EmptyString
  /\ exists ifaces, Interfaces h = Ok ifaces /\ In name (map ifName ifaces).

(** ** A device for the examples *)

Definition be16 (v : Z) : bytes := [byte.of_Z (Z.shiftr v 8); byte.of_Z v].

(** An Ethernet frame carrying an ARP payload, padded to 60 bytes. *)
Definition wireFrame (eth : Ethernet) (arp : ARP) : bytes :=
  let frame :=
    DstMAC eth ++ SrcMAC eth ++ be16 (EthernetType eth)
    ++ be16 (AddrType arp) ++ be16 (Protocol arp)
    ++ [byte.of_Z (HwAddressSize arp); byte.of_Z (ProtAddressSize arp)]
    ++ be16 (Operation arp)
    ++ SourceHwAddress arp ++ SourceProtAddress arp
    ++ DstHwAddress arp ++ DstProtAddress arp in
  frame ++ repeat Byte.x00 (60 - length frame).

Definition errNetworkDown : error := "send: Network is down"%string.

(** A device that takes [budget] frames and fails on every later write. *)
Definition budgetCapture : Capture := {|
  Handle := nat;
  WritePacketData := fun budget _ =>
    match budget with
    | O => (O, Some errNetworkDown)
    | S budget' => (budget', None)
    end;
  SerializeLayers := wireFrame
|}.

Definition mac (a b c d e f : Z) : HardwareAddr :=
  [byte.of_Z a; byte.of_Z b; byte.of_Z c; byte.of_Z d; byte.of_Z e; byte.of_Z f].

Definition eth0 : Interface :=
  mkInterface "eth0" (mac 0xaa 0xbb 0xcc 0xdd 0xee 0xff).

(** [eth0] bound to 10.0.0.5/24 on a device with the given budget. *)
Definition lanEnv (budget : nat) : @ScanEnv budgetCapture :=
  @mkScanEnv budgetCapture eth0
    (Ok [AddrOther; AddrIPNet (mkIPNet (ip4 10 0 0 5) (ip4 255 255 255 0))])
    (Ok budget).

(** A reply from 10.0.0.9, and the frame of one of our own requests. *)
Definition peerReply : Packet :=
  [LayerEthernet (mkEthernet (mac 2 0 0 0 0 9) (ifHardwareAddr eth0) EthernetTypeARP);
   LayerARP (mkARP LinkTypeEthernet EthernetTypeIPv4 6 4 ARPReply
                   (mac 2 0 0 0 0 9) (ip4 10 0 0 9)
                   (ifHardwareAddr eth0) (ip4 10 0 0 5))].

Definition peerEntry : arpTable := mkArpTable (ip4 10 0 0 9) (mac 2 0 0 0 0 9).

(** A host with an interface whose name starts with a space. *)
Definition hostSpace : Host :=
  mkHost (Ok [eth0; mkInterface " eth1" (mac 0xaa 0xbb 0xcc 0xdd 0xee 0x01)]).

Definition hostTwo : Host :=
  mkHost (Ok [mkInterface "lo" []; eth0;
              mkInterface "eth1" (mac 0xaa 0xbb 0xcc 0xdd 0xee 0x01)]).
(** ** Notions used in the statements *)

(** The number that four bytes spell in big-endian order. *)
Definition be32 (b0 b1 b2 b3 : byte) : Z :=
  byte.unsigned b0 * 2 ^ 24 + byte.unsigned b1 * 2 ^ 16
  + byte.unsigned b2 * 2 ^ 8 + byte.unsigned b3.

(** The addresses [num], [num+1], ..., [num+n-1]. *)
Definition addresses_from (num : Z) (n : nat) : list IP :=
  map (fun k => PutUint32 (num + Z.of_nat k)) (seq 0 n).

(** The entry [readARP] makes of an ARP layer. *)
Definition entry_of (arp : ARP) : arpTable :=
  mkArpTable (SourceProtAddress arp) (SourceHwAddress arp).

(** A packet the listener keeps: an ARP reply not sent by [iface]. *)
Definition qualifies (iface : Interface) (packet : Packet) (arp : ARP) : Prop :=
  Layer_ARP packet = Some arp
  /\ Operation arp = ARPReply
  /\ SourceHwAddress arp <> ifHardwareAddr iface.

(** Our own request as the device shows it to us, and a reply that claims
    our own hardware address. *)
Definition ownRequest : Packet :=
  [LayerARP (mkARP LinkTypeEthernet EthernetTypeIPv4 6 4 ARPRequest
                   (ifHardwareAddr eth0) (ip4 10 0 0 5)
                   (mac 0 0 0 0 0 0) (ip4 10 0 0 9))].

Definition ownReply : Packet :=
  [LayerARP (mkARP LinkTypeEthernet EthernetTypeIPv4 6 4 ARPReply
                   (ifHardwareAddr eth0) (ip4 10 0 0 9)
                   (ifHardwareAddr eth0) (ip4 10 0 0 5))].

(** Interfaces for the examples: one without hardware address and without
    IPv4 address, the loopback interface with a hardware address, and
    [eth0] bound to a /8. *)
Definition bareEnv : @ScanEnv budgetCapture :=
  @mkScanEnv budgetCapture (mkInterface "tun0" []) (Ok [AddrOther]) (Ok 8%nat).

Definition noAddrEnv : @ScanEnv budgetCapture :=
  @mkScanEnv budgetCapture eth0 (Ok [AddrOther]) (Ok 8%nat).

Definition loEnv : @ScanEnv budgetCapture :=
  @mkScanEnv budgetCapture (mkInterface "lo" (mac 0 0 0 0 0 1))
    (Ok [AddrIPNet (mkIPNet (ip4 127 0 0 1) (ip4 255 0 0 0))]) (Ok 8%nat).

Definition wideEnv : @ScanEnv budgetCapture :=
  @mkScanEnv budgetCapture eth0
    (Ok [AddrIPNet (mkIPNet (ip4 10 0 0 5) (ip4 255 0 0 0))]) (Ok 8%nat).

Definition lanNet : IPNet := mkIPNet (ip4 10 0 0 5) (ip4 255 255 255 0).

Definition lanCandidates : list IP :=
  map (fun k => ip4 10 0 0 (Z.of_nat k)) (seq 0 255).

(** A scan of 10.0.0.5/24 that goes well: the reply is heard while the
    requests are written. *)
Definition goodSchedule : list event :=
  [Coord; Coord; Recv peerReply] ++ repeat Coord 257
  ++ [Recv ownRequest; RecvStop; Coord; Coord; Coord].

(** A scan whose first write fails: the coordinator reads the table, then
    a reply is heard, then [stop] is closed. *)
Definition failingSchedule : list event :=
  [Coord; Coord; Coord; Recv peerReply; Coord; Coord].

(** An interface bound to 10.0.0.5/32. *)
Definition hostEnv : @ScanEnv budgetCapture :=
  @mkScanEnv budgetCapture eth0
    (Ok [AddrIPNet (mkIPNet (ip4 10 0 0 5) (ip4 255 255 255 255))]) (Ok 0%nat).

(** The address 10.0.0.5 in the 16-byte form [net] hands out, an IPv6
    address, and a mask cut short. *)
Definition mapped5 : IP :=
  repeat Byte.x00 10 ++ [Byte.xff; Byte.xff] ++ ip4 10 0 0 5.

Definition linkLocal6 : IP :=
  [byte.of_Z 0xfe; byte.of_Z 0x80] ++ repeat Byte.x00 13 ++ [Byte.x01].

(** ** [New] *)

(** [arpStruct]: its field is a pointer, nil in the zero value. *)
Record arpStruct : Type := mkArpStruct { iface : option Interface }.

Definition New (h : Host) (interfaceName : string) : arpStruct * option error :=
  match InterfaceByName h interfaceName with
  | Err _ => (mkArpStruct None, Some (errUnknownInterface interfaceName))
  | Ok ifi => (mkArpStruct (Some ifi), None)
  end.

(** ** Further notions used in the statements *)

(** How often the byte [sep] occurs in [s]. *)
Fixpoint count_sep (s : string) (sep : ascii) : nat :=
  match s with
  | EmptyString => 0%nat
  | String c s' => ((if Ascii.eqb c sep then 1 else 0) + count_sep s' sep)%nat
  end.

(** An address whose form is not IPv4, as the search loop of [Scan] sees
    it: not a [*net.IPNet], or one whose [To4] is nil. *)
Definition notIPv4 (a : Addr) : Prop :=
  match a with
  | AddrIPNet n => To4 (ipnIP n) = None
  | AddrOther => True
  end.


(** The mask of a prefix of [ones] bits, as a 32-bit number
    ([net.CIDRMask(ones, 32)] read big-endian). *)
Definition cidrMask (ones : Z) : Z := 2 ^ 32 - 2 ^ (32 - ones).

(** Our own request for [ip] as the packet source decodes it. *)
Definition sentPacket (ifi : Interface) (addr : IPNet) (ip : IP) : Packet :=
  [LayerEthernet (writeARP_eth ifi); LayerARP (writeARP_arp ifi addr ip)].

(** The packets of the [Recv] events of a schedule, in order. *)
Fixpoint recv_packets (schedule : list event) : list Packet :=
  match schedule with
  | [] => []
  | Recv packet :: rest => packet :: recv_packets rest
  | _ :: rest => recv_packets rest
  end.

(** What follows the coordinator's first turn in a schedule. *)
Fixpoint after_first_Coord (schedule : list event) : list event :=
  match schedule with
  | [] => []
  | Coord :: rest => rest
  | _ :: rest => after_first_Coord rest
  end.


(** A host whose interface table cannot be read, an interface whose
    addresses cannot be read, and a device that cannot be opened. *)
Definition errNetlink : error := "route ip+net: netlinkrib: too many open files"%string.

Definition downHost : Host := mkHost (Err errNetlink).

Definition noAddrsEnv : @ScanEnv budgetCapture :=
  @mkScanEnv budgetCapture eth0 (Err errNetlink) (Ok 8%nat).

Definition errPermission : error :=
  "eth0: You don't have permission to capture on that device"%string.

Definition noOpenEnv : @ScanEnv budgetCapture :=
  @mkScanEnv budgetCapture eth0
    (Ok [AddrIPNet (mkIPNet (ip4 10 0 0 5) (ip4 255 255 255 0))])
    (Err errPermission).

(** * Proofs *)

(** ** The prologue on the addresses [net] hands out *)

Example Scan_prologue_mapped :
  Scan_prologue eth0
    (Ok [AddrIPNet (mkIPNet linkLocal6 (repeat Byte.xff 8 ++ repeat Byte.x00 8));
         AddrIPNet (mkIPNet mapped5 (ip4 255 255 255 0))])
  = Return (Ok lanNet).
Proof. reflexivity. Qed.

Example Scan_prologue_ipv6_only :
  Scan_prologue eth0
    (Ok [AddrIPNet (mkIPNet linkLocal6 (repeat Byte.xff 8 ++ repeat Byte.x00 8))])
  = Return (Err errNoNetwork).
Proof. reflexivity. Qed.

Example Scan_prologue_first_only :
  Scan_prologue eth0
    (Ok [AddrIPNet (mkIPNet (ip4 127 0 0 1) (ip4 255 0 0 0));
         AddrIPNet (mkIPNet (ip4 10 0 0 5) (ip4 255 255 255 0))])
  = Return (Err errLocalhost).
Proof. reflexivity. Qed.

Example Scan_prologue_short_mask :
  Scan_prologue eth0 (Ok [AddrIPNet (mkIPNet (ip4 10 0 0 5) [Byte.xff; Byte.xff])])
  = Panic.
Proof. reflexivity. Qed.

(** ** Big-endian words *)

Lemma lor_shiftl_add (a b n : Z) :
  0 <= n -> 0 <= a < 2 ^ n -> Z.lor a (Z.shiftl b n) = a + b * 2 ^ n.
Proof.
  intros Hn Ha.
  rewrite Z.or_to_plus.
  { rewrite Z.shiftl_mul_pow2 by assumption. reflexivity. }
  apply Z.bits_inj'. intros i Hi.
  rewrite Z.land_spec, Z.bits_0.
  destruct (Z_lt_dec i n) as [Hlt | Hge].
  - rewrite Z.shiftl_spec_low by assumption. apply andb_false_r.
  - destruct (Z.eq_dec a 0) as [-> | Hnz].
    + rewrite Z.bits_0. reflexivity.
    + rewrite (Z.bits_above_log2 a i); [reflexivity | lia |].
      apply Z.log2_lt_pow2; [lia |].
      apply Z.lt_le_trans with (2 ^ n); [lia |].
      apply Z.pow_le_mono_r; lia.
Qed.

Lemma be32_range (b0 b1 b2 b3 : byte) : 0 <= be32 b0 b1 b2 b3 < 2 ^ 32.
Proof.
  unfold be32.
  pose proof (byte.unsigned_range b0). pose proof (byte.unsigned_range b1).
  pose proof (byte.unsigned_range b2). pose proof (byte.unsigned_range b3).
  lia.
Qed.

Lemma Uint32_be32 (b0 b1 b2 b3 : byte) (rest : bytes) :
  Uint32 (b0 :: b1 :: b2 :: b3 :: rest) = Some (be32 b0 b1 b2 b3).
Proof.
  unfold Uint32, be32. f_equal.
  pose proof (byte.unsigned_range b0). pose proof (byte.unsigned_range b1).
  pose proof (byte.unsigned_range b2). pose proof (byte.unsigned_range b3).
  rewrite (lor_shiftl_add (byte.unsigned b3)) by lia.
  rewrite (lor_shiftl_add _ (byte.unsigned b1)) by lia.
  rewrite (lor_shiftl_add _ (byte.unsigned b0)) by lia.
  lia.
Qed.

Lemma PutUint32_be32 (b0 b1 b2 b3 : byte) :
  PutUint32 (be32 b0 b1 b2 b3) = [b0; b1; b2; b3].
Proof.
  unfold PutUint32, be32.
  pose proof (byte.unsigned_range b0). pose proof (byte.unsigned_range b1).
  pose proof (byte.unsigned_range b2). pose proof (byte.unsigned_range b3).
  repeat f_equal; apply byte.unsigned_inj;
    rewrite byte.unsigned_of_Z; unfold byte.wrap;
    rewrite ?Z.shiftr_div_pow2 by lia;
    Z.div_mod_to_equations; lia.
Qed.

Lemma Uint32_PutUint32 (v : Z) :
  0 <= v < 2 ^ 32 -> Uint32 (PutUint32 v) = Some v.
Proof.
  intros Hv. unfold PutUint32. rewrite Uint32_be32. f_equal.
  unfold be32. rewrite !byte.unsigned_of_Z. unfold byte.wrap.
  rewrite !Z.shiftr_div_pow2 by lia.
  Z.div_mod_to_equations. lia.
Qed.

Lemma be32_mask24 : be32 Byte.xff Byte.xff Byte.xff Byte.x00 = 0xffffff00.
Proof. reflexivity. Qed.

Lemma land_le_r (a b : Z) : 0 <= b -> Z.land a b <= b.
Proof.
  intros Hb.
  assert (Hsplit : b = Z.land a b + Z.ldiff b a).
  { rewrite <- Z.or_to_plus; Z.bitblast. }
  assert (0 <= Z.ldiff b a) by (apply Z.ldiff_nonneg; left; exact Hb).
  lia.
Qed.

Lemma testbit_high (a n i : Z) :
  0 <= a < 2 ^ n -> n <= i -> Z.testbit a i = false.
Proof.
  intros Ha Hi.
  destruct (Z.eq_dec a 0) as [-> | Hnz]; [apply Z.bits_0 |].
  assert (0 <= n) by (destruct (Z_lt_dec n 0); [rewrite Z.pow_neg_r in Ha; lia | lia]).
  apply Z.bits_above_log2; [lia |].
  apply Z.log2_lt_pow2; [lia |].
  apply Z.lt_le_trans with (2 ^ n); [lia |].
  apply Z.pow_le_mono_r; lia.
Qed.

Lemma land_mask24 (x : Z) :
  0 <= x < 2 ^ 32 -> Z.land x 0xffffff00 = x / 2 ^ 8 * 2 ^ 8.
Proof.
  intros Hx.
  rewrite <- Z.shiftr_div_pow2, <- Z.shiftl_mul_pow2 by lia.
  change 0xffffff00 with (Z.shiftl (Z.ones 24) 8).
  apply Z.bits_inj'. intros i Hi.
  rewrite Z.land_spec, !Z.shiftl_spec by exact Hi.
  destruct (Z_lt_dec i 8) as [Hlow | Hhigh].
  - rewrite !(Z.testbit_neg_r _ (i - 8)) by lia. apply andb_false_r.
  - rewrite Z.shiftr_spec by lia. replace (i - 8 + 8) with i by lia.
    destruct (Z_lt_dec i 32) as [Hin | Hout].
    + rewrite Z.ones_spec_low by lia. apply andb_true_r.
    + rewrite (testbit_high x 32 i) by lia. reflexivity.
Qed.

(** ** The loop of [ips] *)

Lemma ips_loop_step (mask num : Z) (out : list IP) :
  ips_loop mask num out
  = if Z_lt_dec mask maxUint32
    then ips_loop (wrap32 (mask + 1)) (wrap32 (num + 1)) (out ++ [PutUint32 num])
    else out.
Proof.
  unfold ips_loop at 1. rewrite FixWf_unfold.
  - cbn [pr1 pr2]. unfold ips_loop_functional.
    destruct (Z_lt_dec mask maxUint32); reflexivity.
  - intros [mask' [num' out']] f g Hfg. cbn [pr1 pr2].
    unfold ips_loop_functional, ips_loop_clause_1.
    match goal with |- context [Z_lt_dec ?a ?b] => destruct (Z_lt_dec a b) end.
    + apply Hfg.
    + reflexivity.
Qed.

Lemma addresses_from_S (num : Z) (n : nat) :
  addresses_from num (S n) = PutUint32 num :: addresses_from (num + 1) n.
Proof.
  unfold addresses_from. cbn [seq map].
  rewrite Z.add_0_r. f_equal.
  rewrite <- seq_shift, map_map.
  apply map_ext. intros k. f_equal. lia.
Qed.

Lemma ips_loop_spec (n : nat) :
  forall mask num out,
    0 <= mask <= maxUint32 ->
    ips_left mask = n ->
    0 <= num -> num + Z.of_nat n < 2 ^ 32 ->
    ips_loop mask num out = out ++ addresses_from num n.
Proof.
  induction n as [| n IH]; intros mask num out Hmask Hleft Hnum Hfit;
    rewrite ips_loop_step; unfold ips_left, maxUint32 in *;
    destruct (Z_lt_dec mask 4294967295) as [Hlt | Hge]; try lia.
  - unfold addresses_from. cbn. rewrite app_nil_r. reflexivity.
  - unfold wrap32. rewrite !Z.mod_small by lia.
    rewrite IH by lia.
    rewrite addresses_from_S, <- app_assoc. reflexivity.
Qed.

Lemma ips_four (a0 a1 a2 a3 m0 m1 m2 m3 : byte) (ra rm : bytes) :
  ips (mkIPNet (a0 :: a1 :: a2 :: a3 :: ra) (m0 :: m1 :: m2 :: m3 :: rm))
  = Return (addresses_from
              (Z.land (be32 a0 a1 a2 a3) (be32 m0 m1 m2 m3))
              (Z.to_nat (maxUint32 - be32 m0 m1 m2 m3))).
Proof.
  unfold ips. cbn [ipnIP ipnMask]. rewrite !Uint32_be32. f_equal.
  pose proof (be32_range a0 a1 a2 a3) as Ha.
  pose proof (be32_range m0 m1 m2 m3) as Hm.
  pose proof (land_le_r (be32 a0 a1 a2 a3) (be32 m0 m1 m2 m3)) as Hle.
  assert (0 <= Z.land (be32 a0 a1 a2 a3) (be32 m0 m1 m2 m3))
    by (apply Z.land_nonneg; lia).
  rewrite (ips_loop_spec (Z.to_nat (maxUint32 - be32 m0 m1 m2 m3)));
    unfold ips_left, maxUint32 in *; try reflexivity; lia.
Qed.

Lemma addresses_from_length (num : Z) (n : nat) :
  length (addresses_from num n) = n.
Proof. unfold addresses_from. rewrite length_map, length_seq. reflexivity. Qed.

Lemma addresses_slash24 (a0 a1 a2 a3 : byte) (n : nat) :
  (n <= 256)%nat ->
  addresses_from (Z.land (be32 a0 a1 a2 a3) 0xffffff00) n
  = map (fun k => [a0; a1; a2; byte.of_Z (Z.of_nat k)]) (seq 0 n).
Proof.
  intros Hn. unfold addresses_from.
  apply map_ext_in. intros k Hk. apply in_seq in Hk.
  rewrite land_mask24 by apply be32_range.
  rewrite <- (PutUint32_be32 a0 a1 a2 (byte.of_Z (Z.of_nat k))).
  f_equal. unfold be32.
  rewrite byte.unsigned_of_Z. unfold byte.wrap.
  rewrite (Z.mod_small (Z.of_nat k)) by lia.
  pose proof (byte.unsigned_range a0). pose proof (byte.unsigned_range a1).
  pose proof (byte.unsigned_range a2). pose proof (byte.unsigned_range a3).
  Z.div_mod_to_equations. lia.
Qed.

(** ** The two goroutines *)

Section Goroutines.

Context {capture : Capture}.
Variable env : ScanEnv.

Lemma run_app (c : config) (s1 s2 : list event) :
  run env c (s1 ++ s2) = run env (run env c s1) s2.
Proof. unfold run. apply fold_left_app. Qed.

Lemma Scan_app (s1 s2 : list event) :
  Scan env (s1 ++ s2) = run env (Scan env s1) s2.
Proof. apply run_app. Qed.

Lemma collect_snoc (iface : Interface) (packets : list Packet) (p : Packet) :
  collect iface (packets ++ [p])
  = readARP_packet iface (collect iface packets) p.
Proof. unfold collect. rewrite fold_left_app. reflexivity. Qed.

Lemma read_ok_heard (l : listener) (tab tab' : arpTables)
  (packets : list Packet) (p : Packet) (ret : arpTables * option error) :
  snd ret <> None ->
  read_ok env l tab packets ret ->
  read_ok env l tab' (packets ++ [p]) ret.
Proof.
  unfold read_ok. destruct (snd ret) as [e |]; [| congruence].
  intros _ [Hl [k [Hk Hret]]]. split; [exact Hl |].
  exists k. split.
  - rewrite length_app. lia.
  - rewrite firstn_app. replace (k - length packets)%nat with 0%nat by lia.
    cbn. rewrite app_nil_r. exact Hret.
Qed.

Lemma Inv_init : Inv env init.
Proof. unfold Inv, init. cbn. auto. Qed.

Lemma Inv_begin (c : config) :
  Inv env c -> co c = CStart -> Inv env (Scan_begin env c).
Proof.
  unfold Inv. intros [Htab Hco] Hstart. rewrite Hstart in Hco.
  destruct Hco as [Hli [Hwire [Hheard Hstop]]].
  assert (Htable : table c = []) by (rewrite Htab, Hheard; reflexivity).
  unfold Scan_begin.
  destruct (Scan_prologue (envIface env) (envAddrs env)) as [[addr | err] |] eqn:Hpro;
    cbn.
  - destruct (envOpenLive env) as [handle | err] eqn:Hopen; cbn.
    + destruct (ips addr) as [candidates |] eqn:Hips; cbn.
      * repeat split; try assumption.
        exists handle, candidates. rewrite Hwire.
        repeat split; assumption.
      * split; assumption.
    + split; [assumption |]. left. repeat split; try assumption.
      exists err. split; [reflexivity |]. right. exists addr. split; assumption.
  - split; [assumption |]. left. repeat split; try assumption.
    exists err. split; [reflexivity |]. left. exact Hpro.
  - split; assumption.
Qed.

Lemma Inv_step (c : config) (e : event) : Inv env c -> Inv env (step env c e).
Proof.
  intros HI. destruct e as [| packet |]; cbn [step].
  - (* the coordinator moves *)
    unfold step_coord.
    destruct (co c) as [| handle' addr todo | handle' err | handle' | handle'
                        | handle' | handle' ret | handle' ret | ret |] eqn:Hco;
      try (apply Inv_begin; assumption);
      try exact HI;
      unfold Inv in *; rewrite Hco in HI; destruct HI as [Htab HI].
    + (* one turn of the loop of writeARP *)
      destruct HI as [Hli [Hstop [handle [candidates [Hst Hloop]]]]].
      destruct todo as [| ip rest]; cbn in *.
      * repeat split; try assumption.
        exists handle, addr, candidates. split; [assumption |].
        rewrite <- Hloop. reflexivity.
      * destruct (WritePacketData handle' (writeARP_frame (envIface env) addr ip))
          as [h2 [err |]] eqn:Hw; cbn; repeat split; try assumption.
        -- exists handle, addr, candidates. split; [assumption |].
           rewrite <- Hloop. reflexivity.
        -- exists handle, candidates. split; assumption.
    + (* return at, err *)
      destruct HI as [Hli [Hstop Hwr]]. cbn. repeat split; try assumption.
      * rewrite Hli. discriminate.
      * exists (length (heard c)). split; [lia |].
        rewrite firstn_all. exact Htab.
    + destruct HI as [Hli [Hstop Hwr]]. cbn. repeat split; assumption.
    + (* return at, nil *)
      destruct HI as [Hli [Hstop Hwr]]. cbn. repeat split; assumption.
    + destruct HI as [Hstop [Hwr Hread]]. cbn. repeat split; assumption.
    + destruct HI as [Hstop [Hwr Hread]]. cbn. split; [assumption |].
      right. repeat split; try assumption. exists handle'. exact Hwr.
  - (* the listener takes a packet *)
    unfold step_recv. destruct (li c) eqn:Hli; try exact HI.
    unfold Inv in *. destruct HI as [Htab HI]. rewrite Hli in HI.
    cbn [co li table stopClosed wire heard].
    split; [rewrite collect_snoc, Htab; reflexivity |].
    assert (Hkeep : forall ret,
               read_ok env LRun (table c) (heard c) ret ->
               read_ok env LRun
                 (readARP_packet (envIface env) (table c) packet)
                 (heard c ++ [packet]) ret).
    { intros ret Hread. apply read_ok_heard with (tab := table c); [| exact Hread].
      unfold read_ok in Hread. destruct (snd ret); [discriminate |].
      destruct Hread; discriminate. }
    destruct (co c) as [| handle' addr todo | handle' err | handle' | handle'
                        | handle' | handle' ret | handle' ret | ret |];
      try exact HI.
    + destruct HI as [Hl _]. discriminate.
    + destruct HI as [Hstop [Hwr Hread]]. auto.
    + destruct HI as [Hstop [Hwr Hread]]. auto.
    + destruct HI as [[Hl _] | [Hstop [Hwr Hread]]]; [discriminate |].
      right. auto.
  - (* the listener receives from stop *)
    unfold step_stop. destruct (li c) eqn:Hli; try exact HI.
    unfold Inv in *. destruct HI as [Htab HI]. rewrite Hli in HI.
    destruct (co c) as [| handle' addr todo | handle' err | handle' | handle'
                        | handle' | handle' ret | handle' ret | ret |] eqn:Hco.
    + destruct HI as [Hl _]. discriminate.
    + destruct HI as [_ [Hstop HI]]. rewrite Hstop, Hco, Hli. auto.
    + destruct HI as [_ [Hstop HI]]. rewrite Hstop, Hco, Hli. auto.
    + destruct HI as [_ [Hstop HI]]. rewrite Hstop, Hco, Hli. auto.
    + destruct HI as [_ HI]. cbn. auto.
    + destruct HI as [Hl _]. discriminate.
    + destruct HI as [Hstop HI]. rewrite Hstop, Hco, Hli. auto.
    + destruct HI as [Hstop [Hwr Hread]]. rewrite Hstop. cbn.
      repeat split; try assumption.
      unfold read_ok in *. destruct (snd ret).
      * destruct Hread as [_ Hk]. split; [discriminate | exact Hk].
      * destruct Hread; discriminate.
    + destruct HI as [[Hl _] | [Hstop [Hwr Hread]]]; [discriminate |].
      rewrite Hstop. cbn. split; [exact Htab |]. right.
      repeat split; try assumption.
      unfold read_ok in *. destruct (snd ret).
      * destruct Hread as [_ Hk]. split; [discriminate | exact Hk].
      * destruct Hread; discriminate.
    + destruct (stopClosed c); cbn; rewrite ?Hco; auto.
Qed.

Lemma Inv_run (schedule : list event) (c : config) :
  Inv env c -> Inv env (run env c schedule).
Proof.
  revert c. induction schedule as [| e rest IH]; intros c HI; cbn.
  - exact HI.
  - apply IH, Inv_step, HI.
Qed.

Lemma Inv_Scan (schedule : list event) : Inv env (Scan env schedule).
Proof. apply Inv_run, Inv_init. Qed.

End Goroutines.

(** ** [IfaceToName] *)

Section InterfaceNames.

Variable h : Host.

Lemma InterfaceByName_known (name : string) :
  (exists ifi, InterfaceByName h name = Ok ifi) <-> known h name.
Proof.
  unfold InterfaceByName, known.
  destruct (String.eqb_spec name EmptyString) as [-> | Hne].
  - split; [intros [ifi Hifi]; discriminate | intros [Habs _]; congruence].
  - destruct (Interfaces h) as [ift | e].
    + destruct (find (fun ifi => String.eqb name (ifName ifi)) ift) as [ifi |] eqn:Hfind.
      * split; [intros _ | intros _; exists ifi; reflexivity].
        split; [exact Hne |]. exists ift. split; [reflexivity |].
        apply find_some in Hfind. destruct Hfind as [Hin Heq].
        apply String.eqb_eq in Heq. subst name. apply in_map. exact Hin.
      * split; [intros [ifi Hifi]; discriminate |].
        intros [_ [ifaces [Heq Hin]]]. injection Heq as <-.
        apply in_map_iff in Hin. destruct Hin as [ifi [Hname Hin]].
        apply (find_none _ _ Hfind) in Hin. cbn in Hin.
        rewrite Hname, String.eqb_refl in Hin. discriminate.
    + split; [intros [ifi Hifi]; discriminate |].
      intros [_ [ifaces [Heq _]]]. discriminate.
Qed.

Lemma InterfaceByName_unknown (name : string) :
  ~ known h name -> exists e, InterfaceByName h name = Err e.
Proof.
  intros Hunknown. destruct (InterfaceByName h name) as [ifi | e] eqn:Hby.
  - exfalso. apply Hunknown, InterfaceByName_known. exists ifi. exact Hby.
  - exists e. reflexivity.
Qed.

Lemma IfaceToName_loop_known (names : list string) :
  Forall (known h) names -> IfaceToName_loop h names = None.
Proof.
  induction 1 as [| name rest Hname _ IH]; cbn; [reflexivity |].
  apply InterfaceByName_known in Hname. destruct Hname as [ifi ->]. exact IH.
Qed.

Lemma IfaceToName_loop_first_unknown (pre post : list string) (bad : string) :
  Forall (known h) pre -> ~ known h bad ->
  IfaceToName_loop h (pre ++ bad :: post) = Some (errUnknownInterface bad).
Proof.
  intros Hpre Hbad. induction Hpre as [| name rest Hname _ IH]; cbn.
  - destruct (InterfaceByName_unknown bad Hbad) as [e ->]. reflexivity.
  - apply InterfaceByName_known in Hname. destruct Hname as [ifi ->]. exact IH.
Qed.

End InterfaceNames.

Lemma Split_not_nil (s : string) (sep : ascii) : Split s sep <> [].
Proof.
  destruct s as [| c s']; cbn; [discriminate |].
  destruct (Ascii.eqb c sep); [discriminate |].
  destruct (Split s' sep); discriminate.
Qed.

Lemma concat_Split (s : string) (sep : ascii) :
  String.concat (String sep EmptyString) (Split s sep) = s.
Proof.
  induction s as [| c s' IH]; cbn; [reflexivity |].
  destruct (Ascii.eqb_spec c sep) as [-> | Hne].
  - pose proof (Split_not_nil s' sep) as Hnn.
    cbn. destruct (Split s' sep) as [| piece pieces]; [congruence |].
    cbn in *. rewrite IH. reflexivity.
  - pose proof (Split_not_nil s' sep) as Hnn.
    destruct (Split s' sep) as [| piece pieces]; [congruence |].
    cbn in *. destruct pieces as [| piece' pieces'].
    + rewrite IH. reflexivity.
    + cbn. rewrite <- IH. reflexivity.
Qed.

Lemma Split_pieces (s : string) (sep : ascii) :
  Forall (fun piece => ~ In sep (list_ascii_of_string piece)) (Split s sep).
Proof.
  induction s as [| c s' IH]; cbn.
  - constructor; [intros [] | constructor].
  - destruct (Ascii.eqb_spec c sep) as [-> | Hne].
    + constructor; [intros [] | exact IH].
    + destruct (Split s' sep) as [| piece pieces].
      * constructor; [| constructor]. cbn. intros [Heq | []]. congruence.
      * inversion IH as [| ? ? Hpiece Hpieces]; subst.
        constructor; [| exact Hpieces].
        cbn. intros [Heq | Hin]; [congruence | exact (Hpiece Hin)].
Qed.

Lemma IfaceToName_all_known (h : Host) (names : string) :
  names <> "all"%string ->
  Forall (known h) (Split names ",") ->
  IfaceToName h names = (Split names ",", None).
Proof.
  intros Hne Hall. unfold IfaceToName.
  destruct (String.eqb_spec names "all"); [contradiction |].
  cbn. rewrite IfaceToName_loop_known by exact Hall. reflexivity.
Qed.

Lemma IfaceToName_first_unknown (h : Host) (names : string)
  (pre post : list string) (bad : string) :
  names <> "all"%string ->
  Split names "," = pre ++ bad :: post ->
  Forall (known h) pre ->
  ~ known h bad ->
  IfaceToName h names = (Split names ",", Some (errUnknownInterface bad)).
Proof.
  intros Hne Hsplit Hpre Hbad. unfold IfaceToName.
  destruct (String.eqb_spec names "all"); [contradiction |].
  cbn. rewrite Hsplit.
  rewrite IfaceToName_loop_first_unknown by assumption. reflexivity.
Qed.

(** C8: [IfaceToName] maps "all" to the names of the interfaces the host
    reports, in the host's order; any other input is split at the commas
    and every piece is looked up in order: when all are known the split
    list is returned, otherwise the error names the first unknown piece. *)
Theorem C8_IfaceToName (h : Host) :
  (forall ifaces,
      Interfaces h = Ok ifaces ->
      IfaceToName h "all" = (map ifName ifaces, None))
  /\ (forall names,
        names <> "all"%string ->
        Forall (known h) (Split names ",") ->
        IfaceToName h names = (Split names ",", None))
  /\ (forall names pre bad post,
        names <> "all"%string ->
        Split names "," = pre ++ bad :: post ->
        Forall (known h) pre ->
        ~ known h bad ->
        IfaceToName h names
        = (Split names ",", Some (errUnknownInterface bad))).
Proof.
  repeat split.
  - intros ifaces Hifaces. unfold IfaceToName. cbn. rewrite Hifaces. reflexivity.
  - intros names Hne Hall. apply IfaceToName_all_known; assumption.
  - intros names pre bad post Hne Hsplit Hpre Hbad.
    apply IfaceToName_first_unknown with (pre := pre) (post := post); assumption.
Qed.

Lemma known_hostTwo_eth0 : known hostTwo "eth0".
Proof.
  split; [discriminate |]. eexists. split; [reflexivity |]. cbn. auto.
Defined.

Lemma known_hostTwo_eth1 : known hostTwo "eth1".
Proof.
  split; [discriminate |]. eexists. split; [reflexivity |]. cbn. auto.
Defined.

Lemma unknown_hostTwo (name : string) :
  name <> "lo"%string -> name <> "eth0"%string -> name <> "eth1"%string ->
  ~ known hostTwo name.
Proof.
  intros Hlo H0 H1 [_ [ifaces [Heq Hin]]]. injection Heq as <-.
  cbn in Hin. intuition congruence.
Defined.

Lemma C8_IfaceToName_witness :
  IfaceToName hostTwo "all" = (["lo"; "eth0"; "eth1"]%string, None)
  /\ IfaceToName hostTwo "eth0,eth1" = (["eth0"; "eth1"]%string, None)
  /\ IfaceToName hostTwo "eth0,eth2"
     = (["eth0"; "eth2"]%string, Some "interface eth2: unkown"%string).
Proof.
  destruct (C8_IfaceToName hostTwo) as [Hall [Hgood Hbad]].
  split; [| split].
  - exact (Hall _ eq_refl).
  - apply (Hgood "eth0,eth1"%string); [discriminate |].
    cbn. constructor; [apply known_hostTwo_eth0 |].
    constructor; [apply known_hostTwo_eth1 | constructor].
  - apply (Hbad "eth0,eth2"%string ["eth0"%string] "eth2"%string []).
    + discriminate.
    + reflexivity.
    + constructor; [apply known_hostTwo_eth0 | constructor].
    + apply unknown_hostTwo; discriminate.
Defined.

(** C10: for an input other than "all", [IfaceToName] returns the pieces
    between the commas as they are: joined with commas they give the input
    back and no piece holds a comma, so nothing is trimmed, dropped or
    reordered.  "eth0, eth1" is therefore refused unless an interface is
    named " eth1", and the empty input is refused with an error naming
    the empty piece. *)
Theorem C10_IfaceToName_no_normalization (h : Host) :
  (forall names,
      names <> "all"%string ->
      fst (IfaceToName h names) = Split names ","
      /\ String.concat "," (Split names ",") = names
      /\ Forall (fun piece => ~ In ","%char (list_ascii_of_string piece))
                (Split names ","))
  /\ (known h "eth0" -> ~ known h " eth1" ->
      IfaceToName h "eth0, eth1"
      = (["eth0"; " eth1"]%string, Some (errUnknownInterface " eth1")))
  /\ (known h "eth0" -> known h " eth1" ->
      IfaceToName h "eth0, eth1" = (["eth0"; " eth1"]%string, None))
  /\ IfaceToName h EmptyString
     = ([EmptyString], Some (errUnknownInterface EmptyString)).
Proof.
  split; [| split; [| split]].
  - intros names Hne. split; [| split].
    + unfold IfaceToName.
      destruct (String.eqb_spec names "all"); [contradiction | reflexivity].
    + apply concat_Split.
    + apply Split_pieces.
  - intros H0 H1.
    apply IfaceToName_first_unknown with (pre := ["eth0"%string]) (post := []);
      [discriminate | reflexivity | | exact H1].
    constructor; [exact H0 | constructor].
  - intros H0 H1.
    apply IfaceToName_all_known; [discriminate |].
    cbn. constructor; [exact H0 |]. constructor; [exact H1 | constructor].
  - reflexivity.
Qed.

Lemma C10_IfaceToName_no_normalization_witness :
  (fst (IfaceToName hostTwo "eth1,,eth1 ") = ["eth1"; EmptyString; "eth1 "]%string
   /\ String.concat "," ["eth1"; EmptyString; "eth1 "]%string = "eth1,,eth1 "%string)
  /\ IfaceToName hostTwo "eth0, eth1"
     = (["eth0"; " eth1"]%string, Some "interface  eth1: unkown"%string)
  /\ IfaceToName hostSpace "eth0, eth1" = (["eth0"; " eth1"]%string, None)
  /\ IfaceToName hostTwo EmptyString
     = ([EmptyString], Some "interface : unkown"%string).
Proof.
  destruct (C10_IfaceToName_no_normalization hostTwo)
    as [Hsplit [Hrefused [_ Hempty]]].
  destruct (C10_IfaceToName_no_normalization hostSpace)
    as [_ [_ [Haccepted _]]].
  split; [| split; [| split]].
  - destruct (Hsplit "eth1,,eth1 "%string) as [Hfst [Hjoin _]]; [discriminate |].
    split; [exact Hfst | exact Hjoin].
  - apply Hrefused; [apply known_hostTwo_eth0 |].
    apply unknown_hostTwo; discriminate.
  - apply Haccepted.
    + split; [discriminate |]. eexists. split; [reflexivity |]. cbn. auto.
    + split; [discriminate |]. eexists. split; [reflexivity |]. cbn. auto.
  - exact Hempty.
Defined.

(** ** [readARP] on one packet *)

Lemma byte_eqb_iff (x y : byte) : Byte.eqb x y = true <-> x = y.
Proof. split; [apply Byte.byte_dec_bl | apply Byte.byte_dec_lb]. Qed.

Lemma byte_eqb_neq (x y : byte) : x <> y -> Byte.eqb x y = false.
Proof.
  intros Hne. destruct (Byte.eqb x y) eqn:Heq; [| reflexivity].
  apply byte_eqb_iff in Heq. contradiction.
Qed.

Lemma bytes_Equal_iff (a b : bytes) : bytes_Equal a b = true <-> a = b.
Proof.
  unfold bytes_Equal. destruct (bytes_eq_dec a b); split; congruence.
Qed.

Section Listener.

Variable iface : Interface.

Lemma readARP_packet_keeps (table : arpTables) (packet : Packet) (arp : ARP) :
  qualifies iface packet arp ->
  readARP_packet iface table packet = table ++ [entry_of arp].
Proof.
  intros [Hlayer [Hop Hsrc]]. unfold readARP_packet. rewrite Hlayer, Hop.
  cbn. destruct (bytes_Equal (ifHardwareAddr iface) (SourceHwAddress arp)) eqn:Heq.
  - apply bytes_Equal_iff in Heq. congruence.
  - reflexivity.
Qed.

Lemma readARP_packet_drops (table : arpTables) (packet : Packet) :
  (forall arp, ~ qualifies iface packet arp) ->
  readARP_packet iface table packet = table.
Proof.
  intros Hnone. unfold readARP_packet.
  destruct (Layer_ARP packet) as [arp |] eqn:Hlayer; [| reflexivity].
  destruct (Z.eqb_spec (Operation arp) ARPReply) as [Hop | Hop]; [| reflexivity].
  cbn. destruct (bytes_Equal (ifHardwareAddr iface) (SourceHwAddress arp)) eqn:Heq;
    [reflexivity |].
  exfalso. apply (Hnone arp). repeat split; try assumption.
  intros Hsame. rewrite Hsame in Heq.
  assert (Htrue : bytes_Equal (ifHardwareAddr iface) (ifHardwareAddr iface) = true)
    by (apply bytes_Equal_iff; reflexivity).
  congruence.
Qed.

Lemma readARP_packet_cases (table : arpTables) (packet : Packet) :
  (exists arp, qualifies iface packet arp
               /\ readARP_packet iface table packet = table ++ [entry_of arp])
  \/ ((forall arp, ~ qualifies iface packet arp)
      /\ readARP_packet iface table packet = table).
Proof.
  destruct (Layer_ARP packet) as [arp |] eqn:Hlayer.
  - destruct (Z.eq_dec (Operation arp) ARPReply) as [Hop | Hop].
    + destruct (bytes_eq_dec (SourceHwAddress arp) (ifHardwareAddr iface))
        as [Hsrc | Hsrc].
      * right.
        assert (Hnone : forall arp', ~ qualifies iface packet arp').
        { intros arp' [Hl [_ Hs]]. congruence. }
        split; [exact Hnone | apply readARP_packet_drops, Hnone].
      * left. exists arp.
        assert (Hq : qualifies iface packet arp) by (repeat split; assumption).
        split; [exact Hq | apply readARP_packet_keeps, Hq].
    + right.
      assert (Hnone : forall arp', ~ qualifies iface packet arp').
      { intros arp' [Hl [Ho _]]. congruence. }
      split; [exact Hnone | apply readARP_packet_drops, Hnone].
  - right.
    assert (Hnone : forall arp', ~ qualifies iface packet arp').
    { intros arp' [Hl _]. congruence. }
    split; [exact Hnone | apply readARP_packet_drops, Hnone].
Qed.

Lemma app_one_neq {A : Type} (l : list A) (x : A) : l <> l ++ [x].
Proof.
  intros Heq. apply (f_equal (@length A)) in Heq.
  rewrite length_app in Heq. cbn in Heq. lia.
Qed.

Lemma collect_foreign (packets : list Packet) :
  Forall (fun entry => tabHardwareAddr entry <> ifHardwareAddr iface)
         (collect iface packets).
Proof.
  induction packets as [| packet rest IH] using rev_ind.
  - constructor.
  - unfold collect in *. rewrite fold_left_app. cbn.
    destruct (readARP_packet_cases (fold_left (readARP_packet iface) rest []) packet)
      as [[arp [[_ [_ Hsrc]] ->]] | [_ ->]].
    + apply Forall_app. split; [exact IH |]. constructor; [exact Hsrc | constructor].
    + exact IH.
Qed.

End Listener.

(** C4: of one received packet [readARP] appends the entry (source protocol
    address, source hardware address) exactly when the packet has an ARP
    layer, the operation is a reply and the source hardware address is not
    the interface's own; in every other case, a packet without ARP layer
    among them, the table is left as it is.  No entry carrying the local
    hardware address is ever appended, whatever the target protocol
    address of the frame. *)
Theorem C4_readARP_filter (iface : Interface) (table : arpTables) (packet : Packet) :
  (forall entry,
      readARP_packet iface table packet = table ++ [entry]
      <-> exists arp, qualifies iface packet arp /\ entry = entry_of arp)
  /\ ((forall arp, ~ qualifies iface packet arp) ->
      readARP_packet iface table packet = table)
  /\ (Layer_ARP packet = None -> readARP_packet iface table packet = table)
  /\ (forall entry,
         In entry (readARP_packet iface table packet) ->
         In entry table \/ tabHardwareAddr entry <> ifHardwareAddr iface)
  /\ (forall packets,
         Forall (fun entry => tabHardwareAddr entry <> ifHardwareAddr iface)
                (collect iface packets)).
Proof.
  split; [| split; [| split; [| split]]].
  - intros entry. split.
    + intros Happ.
      destruct (readARP_packet_cases iface table packet)
        as [[arp [Hq Hkeep]] | [_ Hdrop]].
      * exists arp. split; [exact Hq |].
        rewrite Hkeep in Happ. apply app_inv_head in Happ. congruence.
      * rewrite Hdrop in Happ. exfalso. exact (app_one_neq _ _ Happ).
    + intros [arp [Hq ->]]. apply readARP_packet_keeps, Hq.
  - apply readARP_packet_drops.
  - intros Hnone. apply readARP_packet_drops.
    intros arp [Hlayer _]. congruence.
  - intros entry Hin.
    destruct (readARP_packet_cases iface table packet)
      as [[arp [[_ [_ Hsrc]] Hkeep]] | [_ Hdrop]].
    + rewrite Hkeep in Hin. apply in_app_or in Hin.
      destruct Hin as [Hold | [<- | []]]; [left; exact Hold | right; exact Hsrc].
    + rewrite Hdrop in Hin. left. exact Hin.
  - apply collect_foreign.
Qed.

Lemma C4_readARP_filter_witness :
  readARP_packet eth0 [] peerReply = [peerEntry]
  /\ readARP_packet eth0 [peerEntry] ownReply = [peerEntry]
  /\ readARP_packet eth0 [peerEntry] [LayerOther []] = [peerEntry]
  /\ (In peerEntry (readARP_packet eth0 [] peerReply) ->
      In peerEntry [] \/ tabHardwareAddr peerEntry <> ifHardwareAddr eth0).
Proof.
  split; [| split; [| split]].
  - destruct (C4_readARP_filter eth0 [] peerReply) as [Hiff _].
    apply (Hiff peerEntry). eexists. split.
    + split; [reflexivity |]. split; [reflexivity |]. cbn. discriminate.
    + reflexivity.
  - destruct (C4_readARP_filter eth0 [peerEntry] ownReply) as [_ [Hdrop _]].
    apply Hdrop. intros arp [Hlayer [_ Hsrc]].
    injection Hlayer as <-. apply Hsrc. reflexivity.
  - destruct (C4_readARP_filter eth0 [peerEntry] [LayerOther []]) as [_ [_ [Hnone _]]].
    apply Hnone. reflexivity.
  - destruct (C4_readARP_filter eth0 [] peerReply) as [_ [_ [_ [Hin _]]]].
    apply Hin.
Defined.

(** ** The checks of [Scan] *)

Section Checks.

Variable iface : Interface.

Lemma Scan_check_noMAC (found : option IPNet) :
  ifHardwareAddr iface = [] -> Scan_check iface found = Return (Err errNoMAC).
Proof. intros Hhw. unfold Scan_check. rewrite Hhw. reflexivity. Qed.

Lemma hw_length (hw : HardwareAddr) : hw <> [] -> (length hw =? 0)%nat = false.
Proof. destruct hw; [congruence | reflexivity]. Qed.

Lemma Scan_check_none :
  ifHardwareAddr iface <> [] -> Scan_check iface None = Return (Err errNoNetwork).
Proof. intros Hhw. unfold Scan_check. rewrite hw_length by exact Hhw. reflexivity. Qed.

Lemma Scan_check_loopback (ra : IP) (mask : IPMask) :
  ifHardwareAddr iface <> [] ->
  Scan_check iface (Some (mkIPNet (Byte.x7f :: ra) mask))
  = Return (Err errLocalhost).
Proof. intros Hhw. unfold Scan_check. rewrite hw_length by exact Hhw. reflexivity. Qed.

Lemma Scan_check_mask (a0 m0 m1 : byte) (ra : IP) (rm : IPMask) :
  ifHardwareAddr iface <> [] -> a0 <> Byte.x7f ->
  Scan_check iface (Some (mkIPNet (a0 :: ra) (m0 :: m1 :: rm)))
  = if (Byte.eqb m0 Byte.xff && Byte.eqb m1 Byte.xff)%bool
    then Return (Ok (mkIPNet (a0 :: ra) (m0 :: m1 :: rm)))
    else Return (Err errTooLarge).
Proof.
  intros Hhw Ha. unfold Scan_check. rewrite hw_length by exact Hhw.
  cbn. rewrite (byte_eqb_neq a0 Byte.x7f) by exact Ha.
  destruct (Byte.eqb m0 Byte.xff); cbn; [| reflexivity].
  destruct (Byte.eqb m1 Byte.xff); reflexivity.
Qed.

Lemma Scan_check_wide (a0 m0 m1 : byte) (ra : IP) (rm : IPMask) :
  ifHardwareAddr iface <> [] -> a0 <> Byte.x7f ->
  m0 <> Byte.xff \/ m1 <> Byte.xff ->
  Scan_check iface (Some (mkIPNet (a0 :: ra) (m0 :: m1 :: rm)))
  = Return (Err errTooLarge).
Proof.
  intros Hhw Ha Hm. rewrite Scan_check_mask by assumption.
  destruct Hm as [Hm | Hm]; rewrite (byte_eqb_neq _ _ Hm);
    [| rewrite andb_false_r]; reflexivity.
Qed.

Lemma Scan_check_narrow (a0 : byte) (ra : IP) (rm : IPMask) :
  ifHardwareAddr iface <> [] -> a0 <> Byte.x7f ->
  Scan_check iface (Some (mkIPNet (a0 :: ra) (Byte.xff :: Byte.xff :: rm)))
  = Return (Ok (mkIPNet (a0 :: ra) (Byte.xff :: Byte.xff :: rm))).
Proof. intros Hhw Ha. rewrite Scan_check_mask by assumption. reflexivity. Qed.

End Checks.

Lemma errors_distinct : NoDup [errNoMAC; errNoNetwork; errLocalhost; errTooLarge].
Proof.
  repeat constructor; cbn; intuition discriminate.
Qed.

(** ** What a scan that never started leaves behind *)

Section Scans.

Context {capture : Capture}.
Variable env : ScanEnv.

Lemma started_unique (h h' : Handle) (a a' : IPNet) (c c' : list IP) :
  started env h a c -> started env h' a' c' -> h = h' /\ a = a' /\ c = c'.
Proof.
  intros [Hp [Ho Hi]] [Hp' [Ho' Hi']].
  rewrite Hp in Hp'. injection Hp' as <-.
  rewrite Ho in Ho'. injection Ho' as <-.
  rewrite Hi in Hi'. injection Hi' as <-. auto.
Qed.

Lemma early_not_started (e : error) (h : Handle) (a : IPNet) (c : list IP) :
  early env e -> started env h a c -> False.
Proof.
  intros [He | [a' [Hp' He]]] [Hp [Ho _]]; congruence.
Qed.

Lemma early_unique (e e' : error) : early env e -> early env e' -> e = e'.
Proof.
  intros [He | [a [Hp He]]] [He' | [a' [Hp' He']]]; congruence.
Qed.

Lemma Inv_wire (c : config) :
  Inv env c -> wire c = [] \/ exists h a cands, started env h a cands.
Proof.
  unfold Inv, wrote. intros [_ HI].
  destruct (co c) as [| handle' addr todo | handle' err | handle' | handle'
                      | handle' | handle' ret | handle' ret | ret |].
  - left. tauto.
  - right. destruct HI as [_ [_ [h [cands [Hst _]]]]]. eauto.
  - right. destruct HI as [_ [_ [h [a [cands [Hst _]]]]]]. eauto.
  - right. destruct HI as [_ [_ [h [a [cands [Hst _]]]]]]. eauto.
  - right. destruct HI as [_ [_ [h [a [cands [Hst _]]]]]]. eauto.
  - right. destruct HI as [_ [_ [h [a [cands [Hst _]]]]]]. eauto.
  - right. destruct HI as [_ [[h [a [cands [Hst _]]]] _]]. eauto.
  - right. destruct HI as [_ [[h [a [cands [Hst _]]]] _]]. eauto.
  - destruct HI as [[_ [Hw _]] | [_ [[h' [h [a [cands [Hst _]]]]] _]]].
    + left. exact Hw.
    + right. eauto.
  - left. exact HI.
Qed.

(** What [Scan] can have returned: an error met before the listener was
    started, with an empty table, or the result of [writeARP] with the
    table as the coordinator read it. *)
Lemma Scan_returned (schedule : list event) (ret : arpTables * option error) :
  returned (Scan env schedule) = Some ret ->
  (fst ret = [] /\ wire (Scan env schedule) = []
   /\ exists e, snd ret = Some e /\ early env e)
  \/ ((exists handle', wrote env (wire (Scan env schedule)) handle' (snd ret))
      /\ read_ok env (li (Scan env schedule)) (table (Scan env schedule))
                 (heard (Scan env schedule)) ret).
Proof.
  intros Hret. pose proof (Inv_Scan env schedule) as [_ HI].
  unfold returned in Hret.
  destruct (co (Scan env schedule)); try discriminate.
  injection Hret as ->.
  destruct HI as [[_ [Hw [_ [Hfst He]]]] | [_ [Hwr Hread]]]; [left | right]; auto.
Qed.

Lemma early_silent (e : error) (schedule : list event) :
  early env e ->
  wire (Scan env schedule) = []
  /\ forall ret, returned (Scan env schedule) = Some ret -> ret = ([], Some e).
Proof.
  intros He. split.
  - destruct (Inv_wire _ (Inv_Scan env schedule)) as [Hw | [h [a [c Hst]]]];
      [exact Hw |].
    exfalso. exact (early_not_started _ _ _ _ He Hst).
  - intros ret Hret. apply Scan_returned in Hret.
    destruct Hret as [[Hfst [_ [e' [Hsnd He']]]] | [[h' [h [a [c [Hst _]]]]] _]].
    + rewrite (early_unique _ _ He He'). destruct ret as [tab oe].
      cbn [fst snd] in Hfst, Hsnd. subst tab oe. reflexivity.
    + exfalso. exact (early_not_started _ _ _ _ He Hst).
Qed.

Lemma early_returns (e : error) :
  early env e -> returned (Scan env [Coord]) = Some ([], Some e).
Proof.
  intros He. unfold Scan, run. cbn. unfold step_coord. cbn. unfold Scan_begin.
  destruct He as [Hp | [a [Hp Ho]]]; rewrite Hp; [reflexivity |].
  rewrite Ho. reflexivity.
Qed.

End Scans.

(** C2, as the code has it: the checks of [Scan] run in the order hardware
    address, address found, loopback, mask, each with an error of its own;
    so an interface with neither a hardware address nor an IPv4 address
    fails with the hardware-address error.  An interface whose selected
    address has first octet 127 fails before any frame is written. *)
Theorem C2_validation_order {capture : Capture} (env : ScanEnv)
  (addrs : list Addr) (found : option IPNet) :
  envAddrs env = Ok addrs ->
  Scan_findAddr addrs = Return found ->
  (ifHardwareAddr (envIface env) = [] ->
   Scan_prologue (envIface env) (envAddrs env) = Return (Err errNoMAC))
  /\ (ifHardwareAddr (envIface env) <> [] -> found = None ->
      Scan_prologue (envIface env) (envAddrs env) = Return (Err errNoNetwork))
  /\ (ifHardwareAddr (envIface env) <> [] ->
      forall ra mask,
        found = Some (mkIPNet (Byte.x7f :: ra) mask) ->
        Scan_prologue (envIface env) (envAddrs env) = Return (Err errLocalhost))
  /\ (ifHardwareAddr (envIface env) <> [] ->
      forall a0 ra m0 m1 rm,
        found = Some (mkIPNet (a0 :: ra) (m0 :: m1 :: rm)) ->
        a0 <> Byte.x7f ->
        m0 <> Byte.xff \/ m1 <> Byte.xff ->
        Scan_prologue (envIface env) (envAddrs env) = Return (Err errTooLarge))
  /\ NoDup [errNoMAC; errNoNetwork; errLocalhost; errTooLarge]
  /\ (forall ra mask,
        found = Some (mkIPNet (Byte.x7f :: ra) mask) ->
        forall schedule,
          wire (Scan env schedule) = []
          /\ (ifHardwareAddr (envIface env) <> [] ->
              returned (Scan env [Coord]) = Some ([], Some errLocalhost)
              /\ forall ret,
                   returned (Scan env schedule) = Some ret ->
                   ret = ([], Some errLocalhost))).
Proof.
  intros Haddrs Hfound.
  assert (Hpro : Scan_prologue (envIface env) (envAddrs env)
                 = Scan_check (envIface env) found).
  { unfold Scan_prologue. rewrite Haddrs, Hfound. reflexivity. }
  rewrite Hpro.
  split; [| split; [| split; [| split; [| split]]]].
  - apply Scan_check_noMAC.
  - intros Hhw ->. apply Scan_check_none, Hhw.
  - intros Hhw ra mask ->. apply Scan_check_loopback, Hhw.
  - intros Hhw a0 ra m0 m1 rm -> Ha Hm. apply Scan_check_wide; assumption.
  - apply errors_distinct.
  - intros ra mask -> schedule.
    destruct (ifHardwareAddr (envIface env)) as [| b hw] eqn:Hhw.
    + assert (He : early env errNoMAC).
      { left. rewrite Hpro. apply Scan_check_noMAC, Hhw. }
      split; [apply (early_silent env _ schedule He) | congruence].
    + assert (He : early env errLocalhost).
      { left. rewrite Hpro. apply Scan_check_loopback. rewrite Hhw. discriminate. }
      split; [apply (early_silent env _ schedule He) |].
      intros _. split; [apply early_returns, He |].
      apply (early_silent env _ schedule He).
Qed.

Lemma C2_validation_order_witness :
  Scan_prologue (envIface bareEnv) (envAddrs bareEnv) = Return (Err errNoMAC)
  /\ Scan_prologue (envIface noAddrEnv) (envAddrs noAddrEnv)
     = Return (Err errNoNetwork)
  /\ Scan_prologue (envIface loEnv) (envAddrs loEnv) = Return (Err errLocalhost)
  /\ Scan_prologue (envIface wideEnv) (envAddrs wideEnv)
     = Return (Err errTooLarge)
  /\ wire (Scan loEnv [Coord; Recv peerReply; Coord; RecvStop; Coord]) = []
  /\ returned (Scan loEnv [Coord]) = Some ([], Some errLocalhost).
Proof.
  split; [| split; [| split; [| split; [| split]]]].
  - destruct (C2_validation_order bareEnv [AddrOther] None eq_refl eq_refl)
      as [Hmac _].
    apply Hmac. reflexivity.
  - destruct (C2_validation_order noAddrEnv [AddrOther] None eq_refl eq_refl)
      as [_ [Hnone _]].
    apply Hnone; [discriminate | reflexivity].
  - destruct (C2_validation_order loEnv _ _ eq_refl eq_refl)
      as [_ [_ [Hlo _]]].
    eapply Hlo; [discriminate | reflexivity].
  - destruct (C2_validation_order wideEnv _ _ eq_refl eq_refl)
      as [_ [_ [_ [Hwide _]]]].
    eapply Hwide; [discriminate | reflexivity | discriminate |].
    right. discriminate.
  - destruct (C2_validation_order loEnv _ _ eq_refl eq_refl)
      as [_ [_ [_ [_ [_ Hsilent]]]]].
    eapply Hsilent. reflexivity.
  - destruct (C2_validation_order loEnv _ _ eq_refl eq_refl)
      as [_ [_ [_ [_ [_ Hsilent]]]]].
    eapply (Hsilent _ _ eq_refl []). discriminate.
Defined.

(** C2 as the spec words it fails: with no IPv4 address and no hardware
    address the error returned is the hardware-address one. *)
Lemma C2_counterexample :
  Scan_prologue (envIface bareEnv) (envAddrs bareEnv) = Return (Err errNoMAC)
  /\ Scan_prologue (envIface bareEnv) (envAddrs bareEnv)
     <> Return (Err errNoNetwork).
Proof. split; [reflexivity | discriminate]. Qed.

(** C3: with a hardware address and a selected address that is not
    loopback, the range check accepts exactly when the first two octets of
    the mask are both 0xff, whatever the other two are: 255.255.0.0 is
    accepted, 255.254.0.0 is refused as too large. *)
Theorem C3_slash16_boundary (iface : Interface) (a0 a1 a2 a3 : byte) :
  ifHardwareAddr iface <> [] ->
  a0 <> Byte.x7f ->
  (forall m0 m1 m2 m3 : byte,
     (Scan_prologue iface
        (Ok [AddrIPNet (mkIPNet [a0; a1; a2; a3] [m0; m1; m2; m3])])
      = Return (Ok (mkIPNet [a0; a1; a2; a3] [m0; m1; m2; m3]))
      <-> m0 = Byte.xff /\ m1 = Byte.xff)
     /\ (Scan_prologue iface
           (Ok [AddrIPNet (mkIPNet [a0; a1; a2; a3] [m0; m1; m2; m3])])
         = Return (Err errTooLarge)
         <-> ~ (m0 = Byte.xff /\ m1 = Byte.xff)))
  /\ Scan_prologue iface
       (Ok [AddrIPNet (mkIPNet [a0; a1; a2; a3] (ip4 255 255 0 0))])
     = Return (Ok (mkIPNet [a0; a1; a2; a3] (ip4 255 255 0 0)))
  /\ Scan_prologue iface
       (Ok [AddrIPNet (mkIPNet [a0; a1; a2; a3] (ip4 255 254 0 0))])
     = Return (Err errTooLarge).
Proof.
  intros Hhw Ha.
  assert (Hpro : forall mask : IPMask,
             length mask = 4%nat ->
             Scan_prologue iface (Ok [AddrIPNet (mkIPNet [a0; a1; a2; a3] mask)])
             = Scan_check iface (Some (mkIPNet [a0; a1; a2; a3] mask))).
  { intros mask Hlen. unfold Scan_prologue. cbn. unfold lastFour.
    rewrite Hlen. reflexivity. }
  split; [| split].
  - intros m0 m1 m2 m3. rewrite Hpro by reflexivity.
    rewrite Scan_check_mask by assumption.
    destruct (Byte.byte_eq_dec m0 Byte.xff) as [-> | H0].
    + destruct (Byte.byte_eq_dec m1 Byte.xff) as [-> | H1].
      * cbn. split; split; intros H; auto; try discriminate.
        exfalso. apply H. auto.
      * rewrite (byte_eqb_neq _ _ H1). cbn.
        split; split; intros H; try discriminate; try tauto.
    + rewrite (byte_eqb_neq _ _ H0). cbn.
      split; split; intros H; try discriminate; try tauto.
  - rewrite Hpro by reflexivity. apply Scan_check_narrow; assumption.
  - rewrite Hpro by reflexivity. apply Scan_check_wide; try assumption.
    right. discriminate.
Qed.

Lemma C3_slash16_boundary_witness :
  (Scan_prologue eth0
     (Ok [AddrIPNet (mkIPNet (ip4 10 0 0 5) (ip4 255 255 128 0))])
   = Return (Ok (mkIPNet (ip4 10 0 0 5) (ip4 255 255 128 0))))
  /\ Scan_prologue eth0
       (Ok [AddrIPNet (mkIPNet (ip4 10 0 0 5) (ip4 255 255 0 0))])
     = Return (Ok (mkIPNet (ip4 10 0 0 5) (ip4 255 255 0 0)))
  /\ Scan_prologue eth0
       (Ok [AddrIPNet (mkIPNet (ip4 10 0 0 5) (ip4 255 254 0 0))])
     = Return (Err errTooLarge).
Proof.
  assert (Hhw : ifHardwareAddr eth0 <> []) by discriminate.
  assert (Ha : byte.of_Z 10 <> Byte.x7f) by discriminate.
  destruct (C3_slash16_boundary eth0 (byte.of_Z 10) (byte.of_Z 0) (byte.of_Z 0)
              (byte.of_Z 5) Hhw Ha) as [Hiff [Hin Hout]].
  split; [| split].
  - apply (Hiff Byte.xff Byte.xff Byte.x80 Byte.x00). split; reflexivity.
  - exact Hin.
  - exact Hout.
Defined.

(** ** [writeARP] *)

Section Writer.

Context {capture : Capture}.
Variable iface : Interface.
Variable addr : IPNet.

Lemma writeARP_loop_wire (candidates : list IP) :
  forall handle frames0,
    writeARP_loop iface addr handle frames0 candidates
    = let '(handle', frames, err) := writeARP_loop iface addr handle [] candidates in
      (handle', frames0 ++ frames, err).
Proof.
  induction candidates as [| ip rest IH]; intros handle frames0; cbn.
  - rewrite app_nil_r. reflexivity.
  - destruct (WritePacketData handle (writeARP_frame iface addr ip)) as [h1 [e |]].
    + reflexivity.
    + rewrite (IH h1 (frames0 ++ [writeARP_frame iface addr ip])).
      rewrite (IH h1 [writeARP_frame iface addr ip]).
      destruct (writeARP_loop iface addr h1 [] rest) as [[h2 frames] err].
      rewrite <- app_assoc. reflexivity.
Qed.

Lemma writeARP_loop_spec (candidates : list IP) :
  forall handle handle' frames err,
    writeARP_loop iface addr handle [] candidates = (handle', frames, err) ->
    stops_at_first_error iface addr handle candidates handle' frames err.
Proof.
  induction candidates as [| ip rest IH]; intros handle handle' frames err; cbn.
  - intros [= <- <- <-]. cbn. split; [reflexivity | constructor].
  - destruct (WritePacketData handle (writeARP_frame iface addr ip))
      as [h1 [e |]] eqn:Hw.
    + intros [= <- <- <-]. cbn.
      exists [], ip, rest, handle. repeat split; [constructor | exact Hw].
    + rewrite writeARP_loop_wire.
      destruct (writeARP_loop iface addr h1 [] rest) as [[h2 frames2] err2] eqn:Hrest.
      intros [= <- <- <-]. specialize (IH _ _ _ _ Hrest).
      unfold stops_at_first_error in *. destruct err2 as [e |].
      * destruct IH as [pre [ip' [post [h3 [Hc [Hall [Hfail Hfr]]]]]]].
        exists (ip :: pre), ip', post, h3. repeat split.
        -- rewrite Hc. reflexivity.
        -- econstructor; eassumption.
        -- exact Hfail.
        -- rewrite Hfr. reflexivity.
      * destruct IH as [Hfr Hall]. split.
        -- rewrite Hfr. reflexivity.
        -- econstructor; eassumption.
Qed.

End Writer.

(** ** A scan that started *)

Section Started.

Context {capture : Capture}.
Variable env : ScanEnv.
Variable handle : Handle.
Variable addr : IPNet.
Variable candidates : list IP.
Hypothesis Hstarted : started env handle addr candidates.

Lemma wrote_started (frames : list bytes) (handle' : Handle) (err : option error) :
  wrote env frames handle' err ->
  writeARP_loop (envIface env) addr handle [] candidates = (handle', frames, err).
Proof.
  intros [h [a [c [Hst Hloop]]]].
  destruct (started_unique env _ _ _ _ _ _ Hst Hstarted) as [-> [-> ->]].
  exact Hloop.
Qed.

(** The frames on the wire are always the first frames [writeARP] writes. *)
Lemma Scan_wire_prefix (schedule : list event) :
  exists rest,
    snd (fst (writeARP_loop (envIface env) addr handle [] candidates))
    = wire (Scan env schedule) ++ rest.
Proof.
  pose proof (Inv_Scan env schedule) as [_ HI].
  assert (Hdone : forall h' err,
             wrote env (wire (Scan env schedule)) h' err ->
             exists rest,
               snd (fst (writeARP_loop (envIface env) addr handle [] candidates))
               = wire (Scan env schedule) ++ rest).
  { intros h' err Hwr. apply wrote_started in Hwr. rewrite Hwr. cbn.
    exists []. rewrite app_nil_r. reflexivity. }
  assert (Hnil : wire (Scan env schedule) = [] ->
             exists rest,
               snd (fst (writeARP_loop (envIface env) addr handle [] candidates))
               = wire (Scan env schedule) ++ rest).
  { intros ->. eexists. reflexivity. }
  destruct (co (Scan env schedule)) as [| handle' addr' todo | handle' err | handle'
                      | handle' | handle' | handle' ret | handle' ret | ret |].
  - apply Hnil. tauto.
  - destruct HI as [_ [_ [h [c [Hst Hloop]]]]].
    destruct (started_unique env _ _ _ _ _ _ Hst Hstarted) as [-> [-> ->]].
    rewrite <- Hloop, writeARP_loop_wire.
    destruct (writeARP_loop (envIface env) addr handle' [] todo) as [[h2 fr] e].
    cbn. exists fr. reflexivity.
  - destruct HI as [_ [_ Hwr]]. eapply Hdone, Hwr.
  - destruct HI as [_ [_ Hwr]]. eapply Hdone, Hwr.
  - destruct HI as [_ [_ Hwr]]. eapply Hdone, Hwr.
  - destruct HI as [_ [_ Hwr]]. eapply Hdone, Hwr.
  - destruct HI as [_ [Hwr _]]. eapply Hdone, Hwr.
  - destruct HI as [_ [Hwr _]]. eapply Hdone, Hwr.
  - destruct HI as [[_ [Hw _]] | [_ [[h' Hwr] _]]].
    + apply Hnil, Hw.
    + eapply Hdone, Hwr.
  - apply Hnil, HI.
Qed.

(** Whatever [Scan] returns, [writeARP] has run to its end, its error is
    the one returned and its frames are the ones on the wire. *)
Lemma Scan_returned_started (schedule : list event)
  (ret : arpTables * option error) :
  returned (Scan env schedule) = Some ret ->
  (exists handle',
      writeARP_loop (envIface env) addr handle [] candidates
      = (handle', wire (Scan env schedule), snd ret))
  /\ read_ok env (li (Scan env schedule)) (table (Scan env schedule))
             (heard (Scan env schedule)) ret.
Proof.
  intros Hret. apply Scan_returned in Hret.
  destruct Hret as [[_ [_ [e [_ He]]]] | [[h' Hwr] Hread]].
  - exfalso. exact (early_not_started env _ _ _ _ He Hstarted).
  - split; [| exact Hread]. exists h'. apply wrote_started, Hwr.
Qed.

Lemma Scan_begin_started :
  Scan_begin env init = mkConfig (CWrite handle addr candidates) LRun [] false [] [].
Proof.
  destruct Hstarted as [Hp [Ho Hi]]. unfold Scan_begin.
  rewrite Hp, Ho, Hi. reflexivity.
Qed.

(** The coordinator alone drives the loop of [writeARP] to its end. *)
Lemma run_write (tab : arpTables) (packets : list Packet) (todo : list IP) :
  forall h frames0,
    exists k,
      run env (mkConfig (CWrite h addr todo) LRun tab false frames0 packets)
          (repeat Coord k)
      = match writeARP_loop (envIface env) addr h frames0 todo with
        | (h', frames, Some e) =>
            mkConfig (CFail h' e) LRun tab false frames packets
        | (h', frames, None) =>
            mkConfig (CSleep h') LRun tab false frames packets
        end.
Proof.
  induction todo as [| ip rest IH]; intros h frames0.
  - exists 1%nat. reflexivity.
  - cbn [writeARP_loop].
    destruct (WritePacketData h (writeARP_frame (envIface env) addr ip))
      as [h1 [e |]] eqn:Hw.
    + exists 1%nat. cbn. unfold step_coord. cbn. rewrite Hw. reflexivity.
    + destruct (IH h1 (frames0 ++ [writeARP_frame (envIface env) addr ip])) as [k Hk].
      exists (S k). cbn [repeat run fold_left]. cbn [step].
      unfold step_coord at 1. cbn [co li table stopClosed wire heard].
      rewrite Hw. exact Hk.
Qed.

(** Under some schedule [Scan] does return what [writeARP] returned. *)
Lemma Scan_can_return :
  exists schedule,
    returned (Scan env schedule)
    = Some ([], snd (writeARP_loop (envIface env) addr handle [] candidates)).
Proof.
  destruct (run_write [] [] candidates handle []) as [k Hk].
  destruct (writeARP_loop (envIface env) addr handle [] candidates)
    as [[h' frames] [e |]] eqn:Hloop.
  - exists (Coord :: repeat Coord k ++ [Coord; Coord; Coord]).
    unfold Scan. cbn [run fold_left step]. unfold step_coord at 1. cbn [co init].
    rewrite Scan_begin_started.
    change (fold_left (step env) ?l ?c) with (run env c l).
    rewrite run_app, Hk. reflexivity.
  - exists (Coord :: repeat Coord k ++ [Coord; RecvStop; Coord; Coord; Coord]).
    unfold Scan. cbn [run fold_left step]. unfold step_coord at 1. cbn [co init].
    rewrite Scan_begin_started.
    change (fold_left (step env) ?l ?c) with (run env c l).
    rewrite run_app, Hk. reflexivity.
Qed.

End Started.

(** C5: [writeARP] hands one frame per candidate to [WritePacketData], in
    the order of the candidates; the first write that fails ends it with
    that error and no frame is written for a later candidate.  [Scan]
    returns the error of [writeARP] to its caller: whatever it returns
    carries that error, with exactly the frames of [writeARP] on the wire,
    and under some schedule it does return it. *)
Theorem C5_writeARP_first_error {capture : Capture} (env : ScanEnv)
  (handle : Handle) (addr : IPNet) (candidates : list IP) :
  ips addr = Return candidates ->
  exists handle' frames err,
    writeARP handle (envIface env) addr = Return (handle', frames, err)
    /\ stops_at_first_error (envIface env) addr handle candidates
                            handle' frames err
    /\ (Scan_prologue (envIface env) (envAddrs env) = Return (Ok addr) ->
        envOpenLive env = Ok handle ->
        (forall schedule ret,
            returned (Scan env schedule) = Some ret ->
            snd ret = err /\ wire (Scan env schedule) = frames)
        /\ (forall schedule,
               exists rest, frames = wire (Scan env schedule) ++ rest)
        /\ exists schedule tbl,
             returned (Scan env schedule) = Some (tbl, err)).
Proof.
  intros Hips.
  destruct (writeARP_loop (envIface env) addr handle [] candidates)
    as [[handle' frames] err] eqn:Hloop.
  exists handle', frames, err. split; [| split].
  - unfold writeARP. rewrite Hips. cbn. rewrite Hloop. reflexivity.
  - apply writeARP_loop_spec, Hloop.
  - intros Hpro Hopen.
    assert (Hst : started env handle addr candidates) by (repeat split; assumption).
    split; [| split].
    + intros schedule ret Hret.
      destruct (Scan_returned_started env _ _ _ Hst schedule ret Hret)
        as [[h' Hwr] _].
      rewrite Hloop in Hwr. injection Hwr as _ <- <-. auto.
    + intros schedule.
      destruct (Scan_wire_prefix env _ _ _ Hst schedule) as [rest Hrest].
      rewrite Hloop in Hrest. exists rest. exact Hrest.
    + destruct (Scan_can_return env _ _ _ Hst) as [schedule Hret].
      rewrite Hloop in Hret. exists schedule, []. exact Hret.
Qed.

Lemma ips_lanNet : ips lanNet = Return lanCandidates.
Proof. vm_compute. reflexivity. Qed.

Lemma lanEnv_prologue (budget : nat) :
  Scan_prologue (envIface (lanEnv budget)) (envAddrs (lanEnv budget))
  = Return (Ok lanNet).
Proof. reflexivity. Qed.

Lemma C5_writeARP_first_error_witness :
  @writeARP budgetCapture 2%nat eth0 lanNet
  = Return (0%nat,
            map (@writeARP_frame budgetCapture eth0 lanNet)
                [ip4 10 0 0 0; ip4 10 0 0 1; ip4 10 0 0 2],
            Some errNetworkDown)
  /\ forall schedule ret,
       returned (Scan (lanEnv 2) schedule) = Some ret ->
       snd ret = Some errNetworkDown.
Proof.
  destruct (@C5_writeARP_first_error budgetCapture (lanEnv 2) 2%nat lanNet
              lanCandidates ips_lanNet)
    as [handle' [frames [err [Hwrite [_ Hscan]]]]].
  assert (Hval : @writeARP budgetCapture 2%nat eth0 lanNet
                 = Return (0%nat,
                           map (@writeARP_frame budgetCapture eth0 lanNet)
                               [ip4 10 0 0 0; ip4 10 0 0 1; ip4 10 0 0 2],
                           Some errNetworkDown))
    by (vm_compute; reflexivity).
  split; [exact Hval |].
  intros schedule ret Hret.
  destruct (Hscan (lanEnv_prologue 2) eq_refl) as [Hall _].
  destruct (Hall schedule ret Hret) as [Hsnd _].
  change (envIface (lanEnv 2)) with eth0 in Hwrite.
  rewrite Hval in Hwrite. injection Hwrite as _ _ <-. exact Hsnd.
Defined.




(** ** The exchange on [stop] *)

Section Rendezvous.

Context {capture : Capture}.
Variable env : ScanEnv.

Lemma exit_step (c : config) (e : event) :
  li c = LExit -> co c <> CStart ->
  li (step env c e) = LExit
  /\ table (step env c e) = table c
  /\ co (step env c e) <> CStart.
Proof.
  intros Hli Hco. destruct e as [| packet |]; cbn [step].
  - unfold step_coord.
    destruct (co c) as [| h a [| ip rest] | h err | h | h | h | h ret | h ret | ret |]
      eqn:Hk; cbn; rewrite ?Hk; try (repeat split; (assumption || discriminate)).
    + congruence.
    + destruct (WritePacketData h (writeARP_frame (envIface env) a ip))
        as [h1 [err |]]; cbn; repeat split; (assumption || discriminate).
  - unfold step_recv. rewrite Hli. auto.
  - unfold step_stop. rewrite Hli. auto.
Qed.

(** Once the listener has left [readARP] the table stays as it is. *)
Lemma exit_run (schedule : list event) :
  forall c,
    li c = LExit -> co c <> CStart ->
    li (run env c schedule) = LExit /\ table (run env c schedule) = table c.
Proof.
  induction schedule as [| e rest IH]; intros c Hli Hco; [cbn; auto |].
  destruct (exit_step c e Hli Hco) as [Hli' [Htab Hco']].
  destruct (IH _ Hli' Hco') as [Hl Ht].
  change (run env c (e :: rest)) with (run env (step env c e) rest).
  rewrite Ht, Htab. auto.
Qed.

(** The only way into the states after the exchange on [stop] is the
    exchange itself: the listener takes the [<-stop] case while the
    coordinator is blocked in [stop <- true]. *)
Lemma step_into_after (c : config) (e : event) :
  ~ after_rendezvous (co c) ->
  after_rendezvous (co (step env c e)) ->
  e = RecvStop /\ li c = LRun /\ exists h, co c = CSend h.
Proof.
  intros Hbefore Hafter. destruct e as [| packet |]; cbn [step] in Hafter.
  - exfalso. unfold step_coord in Hafter.
    destruct (co c) as [| h a [| ip rest] | h err | h | h | h | h ret | h ret | ret |]
      eqn:Hk; cbn in *; rewrite ?Hk in *; cbn in *; try contradiction.
    + unfold Scan_begin in Hafter.
      destruct (Scan_prologue (envIface env) (envAddrs env)) as [[a | err] |];
        cbn in Hafter; try contradiction.
      destruct (envOpenLive env) as [h | err]; cbn in Hafter; try contradiction.
      destruct (ips a); cbn in Hafter; contradiction.
    + destruct (WritePacketData h (writeARP_frame (envIface env) a ip))
        as [h1 [err |]]; cbn in Hafter; contradiction.
  - exfalso. unfold step_recv in Hafter.
    destruct (li c); cbn in Hafter; contradiction.
  - unfold step_stop in Hafter.
    destruct (li c) eqn:Hli; try contradiction.
    destruct (co c) as [| h a todo | h err | h | h | h | h ret | h ret | ret |]
      eqn:Hk; try (destruct (stopClosed c); cbn in Hafter; rewrite ?Hk in Hafter;
                   contradiction).
    repeat split. exists h. reflexivity.
Qed.

Lemma rendezvous_split (schedule : list event) :
  after_rendezvous (co (Scan env schedule)) ->
  exists before after h,
    schedule = before ++ RecvStop :: after
    /\ co (Scan env before) = CSend h
    /\ li (Scan env before) = LRun.
Proof.
  induction schedule as [| e rest IH] using rev_ind.
  - cbn. contradiction.
  - rewrite Scan_app. cbn [run fold_left]. intros Hafter.
    destruct (after_rendezvous_dec (co (Scan env rest))) as [Hyes | Hno].
    + destruct (IH Hyes) as [before [after [h [Heq [Hco Hli]]]]].
      exists before, (after ++ [e]), h. repeat split; try assumption.
      rewrite Heq, <- app_assoc. reflexivity.
    + destruct (step_into_after _ _ Hno Hafter) as [-> [Hli [h Hco]]].
      exists rest, [], h. auto.
Qed.

End Rendezvous.




(** ** The candidates of a network *)

Lemma ips_host_mask (a0 a1 a2 a3 : byte) :
  ips (mkIPNet [a0; a1; a2; a3] [Byte.xff; Byte.xff; Byte.xff; Byte.xff])
  = Return [].
Proof. rewrite ips_four. reflexivity. Qed.

Lemma be32_slash16 (m2 m3 : byte) :
  2 ^ 32 - 2 ^ 16 <= be32 Byte.xff Byte.xff m2 m3.
Proof.
  unfold be32. change (byte.unsigned Byte.xff) with 255.
  pose proof (byte.unsigned_range m2). pose proof (byte.unsigned_range m3). lia.
Qed.

Lemma Uint32_addresses_from (num : Z) (n : nat) :
  0 <= num -> num + Z.of_nat n <= 2 ^ 32 ->
  map Uint32 (addresses_from num n)
  = map (fun k => Some (num + Z.of_nat k)) (seq 0 n).
Proof.
  intros Hnum Hfit. unfold addresses_from. rewrite map_map.
  apply map_ext_in. intros k Hk. apply in_seq in Hk.
  apply Uint32_PutUint32. lia.
Qed.

(** C1: for the mask 255.255.255.0 and the base 192.168.1.0 [ips] yields
    the 255 addresses 192.168.1.0 to 192.168.1.254 in ascending order: the
    network address is the first, 192.168.1.255 is not among them; the same
    holds under that mask for every base address.  For every address and
    mask the sequence starts at (address AND mask) and goes up by one at
    each step. *)
Theorem C1_ips_enumerates :
  ips (mkIPNet (ip4 192 168 1 0) (ip4 255 255 255 0))
  = Return (map (fun k => ip4 192 168 1 (Z.of_nat k)) (seq 0 255))
  /\ (exists out,
        ips (mkIPNet (ip4 192 168 1 0) (ip4 255 255 255 0)) = Return out
        /\ length out = 255%nat
        /\ nth_error out 0 = Some (ip4 192 168 1 0)
        /\ nth_error out 254 = Some (ip4 192 168 1 254)
        /\ ~ In (ip4 192 168 1 255) out)
  /\ (forall a0 a1 a2 a3 : byte,
        ips (mkIPNet [a0; a1; a2; a3] (ip4 255 255 255 0))
        = Return (map (fun k => [a0; a1; a2; byte.of_Z (Z.of_nat k)])
                      (seq 0 255)))
  /\ (forall a0 a1 a2 a3 m0 m1 m2 m3 : byte,
        exists out,
          ips (mkIPNet [a0; a1; a2; a3] [m0; m1; m2; m3]) = Return out
          /\ map Uint32 out
             = map (fun k => Some (Z.land (be32 a0 a1 a2 a3) (be32 m0 m1 m2 m3)
                                   + Z.of_nat k))
                   (seq 0 (length out))
          /\ Uint32 [a0; a1; a2; a3] = Some (be32 a0 a1 a2 a3)
          /\ Uint32 [m0; m1; m2; m3] = Some (be32 m0 m1 m2 m3)).
Proof.
  assert (Hslash24 : forall a0 a1 a2 a3 : byte,
             ips (mkIPNet [a0; a1; a2; a3] (ip4 255 255 255 0))
             = Return (map (fun k => [a0; a1; a2; byte.of_Z (Z.of_nat k)])
                           (seq 0 255))).
  { intros a0 a1 a2 a3.
    change (ip4 255 255 255 0) with [Byte.xff; Byte.xff; Byte.xff; Byte.x00].
    rewrite ips_four, be32_mask24. f_equal.
    change (Z.to_nat (maxUint32 - 0xffffff00)) with 255%nat.
    apply addresses_slash24. lia. }
  assert (Hspec : ips (mkIPNet (ip4 192 168 1 0) (ip4 255 255 255 0))
                  = Return (map (fun k => ip4 192 168 1 (Z.of_nat k)) (seq 0 255))).
  { apply (Hslash24 (byte.of_Z 192) (byte.of_Z 168) (byte.of_Z 1) (byte.of_Z 0)). }
  split; [exact Hspec |]. split; [| split; [exact Hslash24 |]].
  - eexists. split; [exact Hspec |].
    split; [vm_compute; reflexivity |].
    split; [vm_compute; reflexivity |].
    split; [vm_compute; reflexivity |].
    intros Hin. apply in_map_iff in Hin. destruct Hin as [k [Heq Hk]].
    apply in_seq in Hk. injection Heq as Heq.
    apply (f_equal byte.unsigned) in Heq.
    rewrite !byte.unsigned_of_Z in Heq. unfold byte.wrap in Heq.
    rewrite (Z.mod_small (Z.of_nat k)) in Heq by lia.
    rewrite (Z.mod_small 255) in Heq by lia. lia.
  - intros a0 a1 a2 a3 m0 m1 m2 m3. eexists.
    split; [apply ips_four |]. rewrite addresses_from_length.
    split; [| split; apply Uint32_be32].
    pose proof (be32_range a0 a1 a2 a3) as Ha.
    pose proof (be32_range m0 m1 m2 m3) as Hm.
    pose proof (land_le_r (be32 a0 a1 a2 a3) (be32 m0 m1 m2 m3)) as Hle.
    apply Uint32_addresses_from.
    + apply Z.land_nonneg. lia.
    + unfold maxUint32. lia.
Qed.

(** C9: for every 4-byte address and mask [ips] returns, with 2^32 - 1
    minus the mask (read as a big-endian 32-bit number) addresses; when
    the first two octets of the mask are 0xff these are at most 65535, and
    for the mask 255.255.255.255 there is none: a scan of such an
    interface writes no frame and ends without error. *)
Theorem C9_ips_count {capture : Capture} (a0 a1 a2 a3 : byte) :
  (forall m0 m1 m2 m3 : byte,
     exists out mask,
       ips (mkIPNet [a0; a1; a2; a3] [m0; m1; m2; m3]) = Return out
       /\ Uint32 [m0; m1; m2; m3] = Some mask
       /\ Z.of_nat (length out) = 2 ^ 32 - 1 - mask)
  /\ (forall m2 m3 : byte,
        exists out,
          ips (mkIPNet [a0; a1; a2; a3] [Byte.xff; Byte.xff; m2; m3]) = Return out
          /\ Z.of_nat (length out) <= 65535)
  /\ ips (mkIPNet [a0; a1; a2; a3] [Byte.xff; Byte.xff; Byte.xff; Byte.xff])
     = Return []
  /\ (forall (env : ScanEnv) (handle : Handle),
        Scan_prologue (envIface env) (envAddrs env)
        = Return (Ok (mkIPNet [a0; a1; a2; a3]
                              [Byte.xff; Byte.xff; Byte.xff; Byte.xff])) ->
        envOpenLive env = Ok handle ->
        (forall schedule,
            wire (Scan env schedule) = []
            /\ forall ret,
                 returned (Scan env schedule) = Some ret -> snd ret = None)
        /\ returned (Scan env [Coord; Coord; Coord; RecvStop; Coord; Coord; Coord])
           = Some ([], None)).
Proof.
  split; [| split; [| split]].
  - intros m0 m1 m2 m3. eexists. eexists.
    split; [apply ips_four |]. split; [apply Uint32_be32 |].
    rewrite addresses_from_length.
    pose proof (be32_range m0 m1 m2 m3). unfold maxUint32. lia.
  - intros m2 m3. eexists. split; [apply ips_four |].
    rewrite addresses_from_length.
    pose proof (be32_slash16 m2 m3). pose proof (be32_range Byte.xff Byte.xff m2 m3).
    unfold maxUint32. lia.
  - apply ips_host_mask.
  - intros env handle Hpro Hopen.
    assert (Hst : started env handle
                    (mkIPNet [a0; a1; a2; a3]
                             [Byte.xff; Byte.xff; Byte.xff; Byte.xff]) []).
    { split; [exact Hpro | split; [exact Hopen | apply ips_host_mask]]. }
    split.
    + intros schedule. split.
      * destruct (Scan_wire_prefix env _ _ _ Hst schedule) as [rest Hrest].
        cbn in Hrest. symmetry in Hrest. apply app_eq_nil in Hrest. tauto.
      * intros ret Hret.
        destruct (Scan_returned_started env _ _ _ Hst schedule ret Hret)
          as [[h' Hwr] _].
        cbn in Hwr. congruence.
    + change [Coord; Coord; Coord; RecvStop; Coord; Coord; Coord]
        with ([Coord] ++ [Coord; Coord; RecvStop; Coord; Coord; Coord]).
      rewrite Scan_app.
      change (Scan env [Coord]) with (Scan_begin env init).
      rewrite (Scan_begin_started env _ _ _ Hst). reflexivity.
Qed.

Lemma C9_ips_count_witness :
  wire (Scan hostEnv [Coord; Recv peerReply; Coord; Coord; RecvStop; Coord]) = []
  /\ returned (Scan hostEnv [Coord; Coord; Coord; RecvStop; Coord; Coord; Coord])
     = Some ([], None).
Proof.
  destruct (@C9_ips_count budgetCapture (byte.of_Z 10) (byte.of_Z 0)
              (byte.of_Z 0) (byte.of_Z 5)) as [_ [_ [_ Hscan]]].
  destruct (Hscan hostEnv 0%nat eq_refl eq_refl) as [Hall Hret].
  split; [apply Hall | exact Hret].
Defined.

(** * Further properties of the code *)

(** ** [New] and [IfaceToName] *)

Lemma InterfaceByName_name (h : Host) (name : string) (ifi : Interface) :
  InterfaceByName h name = Ok ifi -> ifName ifi = name.
Proof.
  unfold InterfaceByName.
  destruct (String.eqb name EmptyString); [discriminate |].
  destruct (Interfaces h) as [ift | e]; [| discriminate].
  destruct (find (fun i => String.eqb name (ifName i)) ift) as [i |] eqn:Hfind;
    [| discriminate].
  intros [= <-]. apply find_some in Hfind. destruct Hfind as [_ Heq].
  apply String.eqb_eq in Heq. congruence.
Qed.

Lemma New_known (h : Host) (name : string) :
  known h name ->
  exists ifi, New h name = (mkArpStruct (Some ifi), None) /\ ifName ifi = name.
Proof.
  intros Hk. apply InterfaceByName_known in Hk. destruct Hk as [ifi Hifi].
  exists ifi. unfold New. rewrite Hifi.
  split; [reflexivity | exact (InterfaceByName_name _ _ _ Hifi)].
Qed.

Lemma New_unknown (h : Host) (name : string) :
  ~ known h name ->
  New h name = (mkArpStruct None, Some (errUnknownInterface name)).
Proof.
  intros Hk. destruct (InterfaceByName_unknown h name Hk) as [e He].
  unfold New. rewrite He. reflexivity.
Qed.

Lemma known_dec (h : Host) (name : string) : known h name \/ ~ known h name.
Proof.
  destruct (InterfaceByName h name) as [ifi | e] eqn:Hby.
  - left. apply InterfaceByName_known. exists ifi. exact Hby.
  - right. intros Hk. apply InterfaceByName_known in Hk.
    destruct Hk as [ifi Hifi]. congruence.
Qed.

(** X1: [New] succeeds exactly for the name of an interface of the host;
    the interface it then holds carries that name.  For any other name it
    returns the zero value and an error that names the input. *)
Theorem X1_New_known_names (h : Host) (name : string) :
  (known h name <->
   exists ifi, New h name = (mkArpStruct (Some ifi), None) /\ ifName ifi = name)
  /\ (~ known h name <->
      New h name = (mkArpStruct None, Some (errUnknownInterface name))).
Proof.
  split; split.
  - apply New_known.
  - intros [ifi [Hnew _]]. destruct (known_dec h name) as [Hk | Hk]; [exact Hk |].
    rewrite (New_unknown h name Hk) in Hnew. discriminate.
  - apply New_unknown.
  - intros Hnew Hk. destruct (New_known h name Hk) as [ifi [Hok _]]. congruence.
Qed.

Lemma X1_New_known_names_witness :
  (exists ifi, New hostTwo "eth1" = (mkArpStruct (Some ifi), None)
               /\ ifName ifi = "eth1"%string)
  /\ New hostTwo "wlan0"
     = (mkArpStruct None, Some "interface wlan0: unkown"%string).
Proof.
  split.
  - apply (proj1 (X1_New_known_names hostTwo "eth1")), known_hostTwo_eth1.
  - apply (proj2 (X1_New_known_names hostTwo "wlan0")).
    apply unknown_hostTwo; discriminate.
Defined.

Lemma IfaceToName_loop_None (h : Host) (names : list string) :
  IfaceToName_loop h names = None <-> Forall (known h) names.
Proof.
  split; [| apply IfaceToName_loop_known].
  induction names as [| name rest IH]; cbn; [constructor |].
  destruct (InterfaceByName h name) as [ifi | e] eqn:Hby; [| discriminate].
  intros Hrest. constructor; [| exact (IH Hrest)].
  apply InterfaceByName_known. exists ifi. exact Hby.
Qed.

Lemma IfaceToName_other (h : Host) (names : string) :
  names <> "all"%string ->
  IfaceToName h names = (Split names ",", IfaceToName_loop h (Split names ",")).
Proof.
  intros Hne. unfold IfaceToName.
  destruct (String.eqb_spec names "all"); [contradiction | reflexivity].
Qed.

(** X2: every name [IfaceToName] returns without error for an input other
    than "all" is a name [New] accepts, and [New] then holds an interface
    of that name.  The same is true of the names returned for "all" as
    long as the host reports no interface with an empty name. *)
Theorem X2_IfaceToName_then_New (h : Host) (names : string) (r : list string) :
  IfaceToName h names = (r, None) ->
  (names = "all"%string -> ~ In EmptyString r) ->
  Forall (fun name =>
            exists ifi, New h name = (mkArpStruct (Some ifi), None)
                        /\ ifName ifi = name) r.
Proof.
  intros Hres Hall.
  assert (Hknown : Forall (known h) r).
  { destruct (String.eqb_spec names "all") as [-> | Hne].
    - specialize (Hall eq_refl). unfold IfaceToName in Hres. cbn in Hres.
      destruct (Interfaces h) as [ifaces | e] eqn:Hif; [| discriminate].
      injection Hres as <-. apply Forall_forall. intros name Hin.
      split; [intros -> ; exact (Hall Hin) |].
      exists ifaces. split; [exact Hif | exact Hin].
    - rewrite IfaceToName_other in Hres by exact Hne.
      injection Hres as <- Hloop. apply IfaceToName_loop_None, Hloop. }
  apply Forall_forall. intros name Hin.
  apply New_known. exact (proj1 (Forall_forall _ _) Hknown name Hin).
Qed.

Lemma X2_IfaceToName_then_New_witness :
  Forall (fun name =>
            exists ifi, New hostTwo name = (mkArpStruct (Some ifi), None)
                        /\ ifName ifi = name)
         ["eth1"; "eth0"; "eth1"]%string
  /\ Forall (fun name =>
               exists ifi, New hostTwo name = (mkArpStruct (Some ifi), None)
                           /\ ifName ifi = name)
            ["lo"; "eth0"; "eth1"]%string.
Proof.
  split.
  - apply (X2_IfaceToName_then_New hostTwo "eth1,eth0,eth1"); [reflexivity |].
    discriminate.
  - apply (X2_IfaceToName_then_New hostTwo "all"); [reflexivity |].
    intros _ Hin. cbn in Hin. intuition discriminate.
Defined.

(** X3: for an input other than "all", [IfaceToName] returns a nil error
    exactly when every piece between the commas is the name of an
    interface of the host; an input with an empty piece (a leading, a
    trailing or a doubled comma) is therefore always refused. *)
Theorem X3_IfaceToName_accepts_iff (h : Host) (names : string) :
  names <> "all"%string ->
  (snd (IfaceToName h names) = None <-> Forall (known h) (Split names ","))
  /\ (In EmptyString (Split names ",") -> snd (IfaceToName h names) <> None).
Proof.
  intros Hne. rewrite IfaceToName_other by exact Hne. cbn [snd].
  split; [apply IfaceToName_loop_None |].
  intros Hin Hnone. apply IfaceToName_loop_None in Hnone.
  apply (proj1 (Forall_forall _ _) Hnone) in Hin.
  destruct Hin as [Habs _]. congruence.
Qed.

Lemma X3_IfaceToName_accepts_iff_witness :
  snd (IfaceToName hostTwo "eth0,eth1") = None
  /\ snd (IfaceToName hostTwo "eth0,") <> None
  /\ snd (IfaceToName hostTwo ",eth0") <> None
  /\ snd (IfaceToName hostTwo "eth0,,eth1") <> None.
Proof.
  assert (Hin : forall names, names <> "all"%string ->
                  In EmptyString (Split names ",") ->
                  snd (IfaceToName hostTwo names) <> None).
  { intros names Hne. apply (proj2 (X3_IfaceToName_accepts_iff hostTwo names Hne)). }
  split; [| split; [| split]].
  - apply (proj1 (X3_IfaceToName_accepts_iff hostTwo "eth0,eth1" ltac:(discriminate))).
    cbn. constructor; [apply known_hostTwo_eth0 |].
    constructor; [apply known_hostTwo_eth1 | constructor].
  - apply Hin; [discriminate | cbn; auto].
  - apply Hin; [discriminate | cbn; auto].
  - apply Hin; [discriminate | cbn; auto].
Defined.

Lemma Split_length (s : string) (sep : ascii) :
  length (Split s sep) = S (count_sep s sep).
Proof.
  induction s as [| c s' IH]; cbn; [reflexivity |].
  destruct (Ascii.eqb c sep); cbn.
  - rewrite IH. reflexivity.
  - destruct (Split s' sep) as [| piece pieces]; cbn in *; [discriminate | exact IH].
Qed.

(** X4: for an input other than "all" the slice [IfaceToName] returns,
    with or without error, has one name more than the input has commas;
    it is never empty. *)
Theorem X4_IfaceToName_count (h : Host) (names : string) :
  names <> "all"%string ->
  length (fst (IfaceToName h names)) = S (count_sep names ",").
Proof.
  intros Hne. rewrite IfaceToName_other by exact Hne. apply Split_length.
Qed.

Lemma X4_IfaceToName_count_witness :
  length (fst (IfaceToName hostTwo "eth0,,nope,")) = 4%nat.
Proof. apply (X4_IfaceToName_count hostTwo "eth0,,nope,"). discriminate. Defined.

(** ** The address [Scan] selects *)

Lemma Scan_findAddr_skip (pre rest : list Addr) :
  Forall notIPv4 pre -> Scan_findAddr (pre ++ rest) = Scan_findAddr rest.
Proof.
  induction 1 as [| a pre Ha _ IH]; cbn; [reflexivity |].
  destruct a as [n |]; cbn in Ha; [rewrite Ha |]; exact IH.
Qed.

Lemma To4_length (ip ip' : IP) : To4 ip = Some ip' -> length ip' = 4%nat.
Proof.
  unfold To4. destruct (Nat.eqb_spec (length ip) 4) as [H4 | _].
  - intros [= <-]. exact H4.
  - destruct (Nat.eqb_spec (length ip) 16) as [H16 | _];
      cbn [andb]; [| discriminate].
    match goal with |- (if ?b then _ else _) = _ -> _ => destruct b end;
      [| discriminate].
    intros [= <-]. change (length (skipn 12 ip) = 4%nat).
    rewrite length_skipn, H16. reflexivity.
Qed.

Lemma lastFour_length (m m' : bytes) : lastFour m = Return m' -> length m' = 4%nat.
Proof.
  unfold lastFour. destruct (Nat.ltb_spec (length m) 4); [discriminate |].
  intros [= <-]. rewrite length_skipn. lia.
Qed.

Lemma Scan_findAddr_four (addrs : list Addr) (addr : IPNet) :
  Scan_findAddr addrs = Return (Some addr) ->
  length (ipnIP addr) = 4%nat /\ length (ipnMask addr) = 4%nat.
Proof.
  induction addrs as [| a rest IH]; cbn; [discriminate |].
  destruct a as [n |]; [| exact IH].
  destruct (To4 (ipnIP n)) as [ip |] eqn:Hip; [| exact IH].
  destruct (lastFour (ipnMask n)) as [m |] eqn:Hm; cbn; [| discriminate].
  intros [= <-]. cbn. split; [exact (To4_length _ _ Hip) | exact (lastFour_length _ _ Hm)].
Qed.

(** X5: the search loop of [Scan] takes the first address with an IPv4
    form and looks no further: what comes after it in the list has no
    effect.  Its mask is cut to the last four bytes, and a mask shorter
    than that makes the slice expression panic.  When no address has an
    IPv4 form nothing is selected. *)
Theorem X5_Scan_first_IPv4 (pre post : list Addr) (n : IPNet) (ip : IP) :
  Forall notIPv4 pre ->
  To4 (ipnIP n) = Some ip ->
  Scan_findAddr pre = Return None
  /\ Scan_findAddr (pre ++ AddrIPNet n :: post)
     = if (length (ipnMask n) <? 4)%nat then Panic
       else Return (Some (mkIPNet ip (skipn (length (ipnMask n) - 4) (ipnMask n)))).
Proof.
  intros Hpre Hip. split.
  - rewrite <- (app_nil_r pre), Scan_findAddr_skip by exact Hpre. reflexivity.
  - rewrite Scan_findAddr_skip by exact Hpre. cbn [Scan_findAddr]. rewrite Hip.
    unfold lastFour. destruct (Nat.ltb_spec (length (ipnMask n)) 4); reflexivity.
Qed.

Lemma X5_Scan_first_IPv4_witness :
  Scan_findAddr
    [AddrOther; AddrIPNet (mkIPNet linkLocal6 (repeat Byte.xff 16));
     AddrIPNet (mkIPNet mapped5 (repeat Byte.xff 12 ++ ip4 255 255 255 0));
     AddrIPNet (mkIPNet (ip4 192 168 1 7) (ip4 255 255 0 0))]
  = Return (Some lanNet).
Proof.
  apply (X5_Scan_first_IPv4
           [AddrOther; AddrIPNet (mkIPNet linkLocal6 (repeat Byte.xff 16))]
           [AddrIPNet (mkIPNet (ip4 192 168 1 7) (ip4 255 255 0 0))]
           (mkIPNet mapped5 (repeat Byte.xff 12 ++ ip4 255 255 255 0))
           (ip4 10 0 0 5)).
  - constructor; [exact I |]. constructor; [reflexivity | constructor].
  - reflexivity.
Defined.

Lemma index_Return (s : bytes) (i : nat) (b : byte) :
  index s i = Return b -> nth_error s i = Some b.
Proof. unfold index. destruct (nth_error s i); [intros [= ->]; reflexivity | discriminate]. Qed.

Lemma Scan_check_Ok (ifi : Interface) (found : option IPNet) (addr : IPNet) :
  Scan_check ifi found = Return (Ok addr) ->
  found = Some addr
  /\ ifHardwareAddr ifi <> []
  /\ (exists a0, nth_error (ipnIP addr) 0 = Some a0 /\ a0 <> Byte.x7f)
  /\ nth_error (ipnMask addr) 0 = Some Byte.xff
  /\ nth_error (ipnMask addr) 1 = Some Byte.xff.
Proof.
  unfold Scan_check.
  destruct (ifHardwareAddr ifi) as [| b hw]; cbn; [discriminate |].
  destruct found as [a |]; [| discriminate].
  destruct (index (ipnIP a) 0) as [a0 |] eqn:H0; cbn; [| discriminate].
  destruct (Byte.eqb a0 Byte.x7f) eqn:Hlo; [discriminate |].
  destruct (index (ipnMask a) 0) as [m0 |] eqn:Hm0; cbn; [| discriminate].
  destruct (Byte.eqb m0 Byte.xff) eqn:Hff0; cbn; [| discriminate].
  destruct (index (ipnMask a) 1) as [m1 |] eqn:Hm1; cbn; [| discriminate].
  destruct (Byte.eqb m1 Byte.xff) eqn:Hff1; cbn; [| discriminate].
  intros [= <-]. apply byte_eqb_iff in Hff0, Hff1. subst m0 m1.
  split; [reflexivity |]. split; [discriminate |]. split.
  - exists a0. split; [exact (index_Return _ _ _ H0) | apply Byte.eqb_false, Hlo].
  - split; [exact (index_Return _ _ _ Hm0) | exact (index_Return _ _ _ Hm1)].
Qed.

Lemma Scan_prologue_Ok (ifi : Interface) (addrs : result (list Addr)) (addr : IPNet) :
  Scan_prologue ifi addrs = Return (Ok addr) ->
  ifHardwareAddr ifi <> []
  /\ exists a0 a1 a2 a3 m2 m3,
       addr = mkIPNet [a0; a1; a2; a3] [Byte.xff; Byte.xff; m2; m3]
       /\ a0 <> Byte.x7f.
Proof.
  unfold Scan_prologue. destruct addrs as [l | e]; [| discriminate].
  destruct (Scan_findAddr l) as [found |] eqn:Hfind; cbn; [| discriminate].
  intros Hcheck. apply Scan_check_Ok in Hcheck.
  destruct Hcheck as [-> [Hhw [[a0 [Ha0 Hlo]] [Hm0 Hm1]]]].
  split; [exact Hhw |].
  apply Scan_findAddr_four in Hfind. destruct Hfind as [Hip Hmask].
  destruct addr as [ip mask]. cbn in *.
  destruct ip as [| b0 [| b1 [| b2 [| b3 [| ? ?]]]]]; try discriminate.
  destruct mask as [| c0 [| c1 [| c2 [| c3 [| ? ?]]]]]; try discriminate.
  cbn in Ha0, Hm0, Hm1. injection Ha0 as ->. injection Hm0 as ->. injection Hm1 as ->.
  exists a0, b1, b2, b3, c2, c3. split; [reflexivity | exact Hlo].
Qed.

Lemma ips_slash16 (a0 a1 a2 a3 m2 m3 : byte) :
  exists candidates,
    ips (mkIPNet [a0; a1; a2; a3] [Byte.xff; Byte.xff; m2; m3]) = Return candidates
    /\ Z.of_nat (length candidates) <= 65535.
Proof.
  eexists. split; [apply ips_four |].
  rewrite addresses_from_length.
  pose proof (be32_slash16 m2 m3). pose proof (be32_range Byte.xff Byte.xff m2 m3).
  unfold maxUint32. lia.
Qed.

(** X6: a network range that passes the prologue of [Scan] is well formed:
    the interface has a hardware address, address and mask have four
    bytes each, the address is not a loopback one and the mask begins
    with 0xff 0xff.  On such a range [ips] cannot panic, and it yields at
    most 65535 candidates. *)
Theorem X6_accepted_range (ifi : Interface) (addrs : result (list Addr))
  (addr : IPNet) :
  Scan_prologue ifi addrs = Return (Ok addr) ->
  ifHardwareAddr ifi <> []
  /\ length (ipnIP addr) = 4%nat
  /\ length (ipnMask addr) = 4%nat
  /\ nth_error (ipnIP addr) 0 <> Some Byte.x7f
  /\ firstn 2 (ipnMask addr) = [Byte.xff; Byte.xff]
  /\ exists candidates,
       ips addr = Return candidates /\ Z.of_nat (length candidates) <= 65535.
Proof.
  intros Hpro. apply Scan_prologue_Ok in Hpro.
  destruct Hpro as [Hhw [a0 [a1 [a2 [a3 [m2 [m3 [-> Hlo]]]]]]]].
  split; [exact Hhw |]. cbn.
  repeat split; try reflexivity; [congruence |].
  apply ips_slash16.
Qed.

Lemma X6_accepted_range_witness :
  exists candidates,
    ips lanNet = Return candidates /\ Z.of_nat (length candidates) <= 65535.
Proof.
  apply (X6_accepted_range eth0
           (Ok [AddrOther; AddrIPNet (mkIPNet mapped5 (ip4 255 255 255 0))]) lanNet).
  reflexivity.
Defined.

(** ** More on the candidates of [ips] *)

Lemma PutUint32_length (v : Z) : length (PutUint32 v) = 4%nat.
Proof. reflexivity. Qed.

Lemma NoDup_map_injective {A B : Type} (f : A -> B) (l : list A) :
  (forall x y, f x = f y -> x = y) -> NoDup l -> NoDup (map f l).
Proof.
  intros Hinj. induction 1 as [| x l Hx _ IH]; cbn; constructor; [| exact IH].
  intros Hin. apply in_map_iff in Hin. destruct Hin as [y [Heq Hy]].
  apply Hinj in Heq. subst y. contradiction.
Qed.

Lemma addresses_from_NoDup (num : Z) (n : nat) :
  0 <= num -> num + Z.of_nat n <= 2 ^ 32 -> NoDup (addresses_from num n).
Proof.
  intros Hnum Hfit. apply (NoDup_map_inv Uint32).
  rewrite Uint32_addresses_from by assumption.
  apply NoDup_map_injective; [| apply seq_NoDup].
  intros x y Heq. injection Heq as Heq. lia.
Qed.

Lemma addresses_from_In (num : Z) (n : nat) (v : Z) :
  0 <= num -> num + Z.of_nat n <= 2 ^ 32 -> 0 <= v < 2 ^ 32 ->
  In (PutUint32 v) (addresses_from num n) <-> num <= v < num + Z.of_nat n.
Proof.
  intros Hnum Hfit Hv. unfold addresses_from. rewrite in_map_iff. split.
  - intros [k [Heq Hk]]. apply in_seq in Hk.
    apply (f_equal Uint32) in Heq.
    rewrite !Uint32_PutUint32 in Heq by lia. injection Heq as Heq. lia.
  - intros Hin. exists (Z.to_nat (v - num)). split.
    + f_equal. lia.
    + apply in_seq. lia.
Qed.

Lemma ips_fits (a0 a1 a2 a3 m0 m1 m2 m3 : byte) :
  0 <= Z.land (be32 a0 a1 a2 a3) (be32 m0 m1 m2 m3)
  /\ Z.land (be32 a0 a1 a2 a3) (be32 m0 m1 m2 m3)
     + Z.of_nat (Z.to_nat (maxUint32 - be32 m0 m1 m2 m3)) <= 2 ^ 32.
Proof.
  pose proof (be32_range a0 a1 a2 a3) as Ha.
  pose proof (be32_range m0 m1 m2 m3) as Hm.
  pose proof (land_le_r (be32 a0 a1 a2 a3) (be32 m0 m1 m2 m3)) as Hle.
  assert (0 <= Z.land (be32 a0 a1 a2 a3) (be32 m0 m1 m2 m3))
    by (apply Z.land_nonneg; lia).
  unfold maxUint32. lia.
Qed.

(** X7: [ips] never yields an address twice, and every address it yields
    has four bytes. *)
Theorem X7_ips_distinct (a0 a1 a2 a3 m0 m1 m2 m3 : byte) :
  exists out,
    ips (mkIPNet [a0; a1; a2; a3] [m0; m1; m2; m3]) = Return out
    /\ NoDup out
    /\ Forall (fun ip => length ip = 4%nat) out.
Proof.
  eexists. split; [apply ips_four |]. split.
  - apply addresses_from_NoDup; apply ips_fits.
  - unfold addresses_from. apply Forall_forall. intros ip Hin.
    apply in_map_iff in Hin. destruct Hin as [k [<- _]]. reflexivity.
Qed.

Lemma land_cidr (x h : Z) :
  0 <= h <= 32 -> 0 <= x < 2 ^ 32 ->
  Z.land x (2 ^ 32 - 2 ^ h) = x / 2 ^ h * 2 ^ h.
Proof.
  intros Hh Hx.
  assert (Hmask : 2 ^ 32 - 2 ^ h = Z.shiftl (Z.ones (32 - h)) h).
  { rewrite Z.shiftl_mul_pow2, Z.ones_equiv by lia.
    rewrite <- Z.sub_1_r, Z.mul_sub_distr_r, <- Z.pow_add_r by lia.
    replace (32 - h + h) with 32 by lia. lia. }
  rewrite Hmask, <- Z.shiftr_div_pow2, <- Z.shiftl_mul_pow2 by lia.
  apply Z.bits_inj'. intros i Hi.
  rewrite Z.land_spec, !Z.shiftl_spec by exact Hi.
  destruct (Z_lt_dec i h) as [Hlow | Hhigh].
  - rewrite !(Z.testbit_neg_r _ (i - h)) by lia. apply andb_false_r.
  - rewrite Z.shiftr_spec by lia. replace (i - h + h) with i by lia.
    destruct (Z_lt_dec i 32) as [Hin | Hout].
    + rewrite Z.ones_spec_low by lia. apply andb_true_r.
    + rewrite (testbit_high x 32 i) by lia. reflexivity.
Qed.

(** X8: under the mask of a prefix (the first [ones] bits set, the others
    clear) every candidate of [ips] lies in the network of the address it
    was given: masked, it gives the same network address. *)
Theorem X8_ips_in_network (a0 a1 a2 a3 m0 m1 m2 m3 : byte) (ones : Z) :
  0 <= ones <= 32 ->
  be32 m0 m1 m2 m3 = cidrMask ones ->
  exists out,
    ips (mkIPNet [a0; a1; a2; a3] [m0; m1; m2; m3]) = Return out
    /\ Forall (fun ip =>
                 exists v, Uint32 ip = Some v
                           /\ Z.land v (be32 m0 m1 m2 m3)
                              = Z.land (be32 a0 a1 a2 a3) (be32 m0 m1 m2 m3))
              out.
Proof.
  intros Hones Hmask. eexists. split; [apply ips_four |].
  pose proof (be32_range a0 a1 a2 a3) as Ha.
  rewrite Hmask. unfold cidrMask, maxUint32.
  set (h := 32 - ones). assert (Hh : 0 <= h <= 32) by (unfold h; lia).
  assert (Hpow : 0 < 2 ^ h <= 2 ^ 32).
  { split; [apply Z.pow_pos_nonneg; lia | apply Z.pow_le_mono_r; lia]. }
  rewrite (land_cidr (be32 a0 a1 a2 a3)) by assumption.
  set (q := be32 a0 a1 a2 a3 / 2 ^ h).
  assert (Hq : 0 <= q * 2 ^ h <= be32 a0 a1 a2 a3).
  { unfold q. pose proof (Z.mul_div_le (be32 a0 a1 a2 a3) (2 ^ h)).
    assert (0 <= be32 a0 a1 a2 a3 / 2 ^ h) by (apply Z.div_pos; lia).
    nia. }
  assert (Htop : (q + 1) * 2 ^ h <= 2 ^ 32).
  { assert (Hsplit : 2 ^ 32 = 2 ^ h * 2 ^ (32 - h)).
    { rewrite <- Z.pow_add_r by lia. f_equal. lia. }
    assert (Hlt : q < 2 ^ (32 - h)).
    { unfold q. apply Z.div_lt_upper_bound; lia. }
    rewrite Hsplit. nia. }
  unfold addresses_from. apply Forall_forall. intros ip Hin.
  apply in_map_iff in Hin. destruct Hin as [k [<- Hk]]. apply in_seq in Hk.
  exists (q * 2 ^ h + Z.of_nat k).
  split; [apply Uint32_PutUint32; lia |].
  rewrite land_cidr by lia. f_equal.
  rewrite Z.div_add_l by lia. rewrite Z.div_small by lia. lia.
Qed.

Lemma X8_ips_in_network_witness :
  exists out,
    ips (mkIPNet (ip4 172 16 37 5) (ip4 255 255 240 0)) = Return out
    /\ Forall (fun ip =>
                 exists v, Uint32 ip = Some v
                           /\ Z.land v 0xfffff000 = Z.land 0xac102505 0xfffff000)
              out.
Proof.
  assert (Hones : 0 <= 20 <= 32) by lia.
  exact (X8_ips_in_network (byte.of_Z 172) (byte.of_Z 16) (byte.of_Z 37)
           (byte.of_Z 5) (byte.of_Z 255) (byte.of_Z 255) (byte.of_Z 240)
           (byte.of_Z 0) 20 Hones eq_refl).
Defined.

Lemma land_le_l (a b : Z) : 0 <= a -> Z.land a b <= a.
Proof. intros Ha. rewrite Z.land_comm. apply land_le_r, Ha. Qed.

(** X9: [ips] yields the address it was given, the interface's own, unless
    that address is the last of its network: its offset from the network
    address must be below 2^32 - 1 - mask.  Under the mask 255.255.255.0
    the own address is among the candidates exactly when its last octet
    is not 255. *)
Theorem X9_ips_own_address (a0 a1 a2 a3 : byte) :
  (forall m0 m1 m2 m3 : byte,
     exists out,
       ips (mkIPNet [a0; a1; a2; a3] [m0; m1; m2; m3]) = Return out
       /\ (In [a0; a1; a2; a3] out
           <-> be32 a0 a1 a2 a3 - Z.land (be32 a0 a1 a2 a3) (be32 m0 m1 m2 m3)
               < maxUint32 - be32 m0 m1 m2 m3))
  /\ exists out,
       ips (mkIPNet [a0; a1; a2; a3] (ip4 255 255 255 0)) = Return out
       /\ (In [a0; a1; a2; a3] out <-> a3 <> Byte.xff).
Proof.
  assert (Hgen : forall m0 m1 m2 m3 : byte,
             In [a0; a1; a2; a3]
                (addresses_from (Z.land (be32 a0 a1 a2 a3) (be32 m0 m1 m2 m3))
                   (Z.to_nat (maxUint32 - be32 m0 m1 m2 m3)))
             <-> be32 a0 a1 a2 a3 - Z.land (be32 a0 a1 a2 a3) (be32 m0 m1 m2 m3)
                 < maxUint32 - be32 m0 m1 m2 m3).
  { intros m0 m1 m2 m3.
    pose proof (be32_range a0 a1 a2 a3) as Ha.
    pose proof (be32_range m0 m1 m2 m3) as Hm.
    pose proof (land_le_l (be32 a0 a1 a2 a3) (be32 m0 m1 m2 m3)) as Hle.
    destruct (ips_fits a0 a1 a2 a3 m0 m1 m2 m3) as [Hnum Hfit].
    rewrite <- (PutUint32_be32 a0 a1 a2 a3) at 1.
    rewrite addresses_from_In by assumption.
    unfold maxUint32 in *. lia. }
  split.
  - intros m0 m1 m2 m3. eexists. split; [apply ips_four | apply Hgen].
  - change (ip4 255 255 255 0) with [Byte.xff; Byte.xff; Byte.xff; Byte.x00].
    eexists. split; [apply ips_four |].
    rewrite Hgen, be32_mask24.
    rewrite land_mask24 by apply be32_range.
    pose proof (byte.unsigned_range a0). pose proof (byte.unsigned_range a1).
    pose proof (byte.unsigned_range a2). pose proof (byte.unsigned_range a3).
    assert (Hoff : be32 a0 a1 a2 a3 - be32 a0 a1 a2 a3 / 2 ^ 8 * 2 ^ 8
                   = byte.unsigned a3).
    { unfold be32. Z.div_mod_to_equations. lia. }
    rewrite Hoff. unfold maxUint32. split.
    + intros Hlt ->. change (byte.unsigned Byte.xff) with 255 in Hlt. lia.
    + intros Hne.
      assert (byte.unsigned a3 <> 255).
      { intros Heq. apply Hne. apply byte.unsigned_inj. exact Heq. }
      lia.
Qed.

(** ** What the listener collects *)

Lemma collect_from (ifi : Interface) (packets : list Packet) :
  forall tab,
    fold_left (readARP_packet ifi) packets tab = tab ++ collect ifi packets.
Proof.
  induction packets as [| packet rest IH] using rev_ind; intros tab.
  - cbn. rewrite app_nil_r. reflexivity.
  - rewrite collect_snoc, fold_left_app. cbn. rewrite IH.
    destruct (readARP_packet_cases ifi (collect ifi rest) packet)
      as [[arp [Hq Hkeep]] | [Hnone Hdrop]].
    + rewrite Hkeep, (readARP_packet_keeps ifi _ _ _ Hq), app_assoc. reflexivity.
    + rewrite Hdrop, (readARP_packet_drops ifi _ _ Hnone). reflexivity.
Qed.

Lemma collect_app (ifi : Interface) (p1 p2 : list Packet) :
  collect ifi (p1 ++ p2) = collect ifi p1 ++ collect ifi p2.
Proof.
  unfold collect at 1. rewrite fold_left_app.
  change (fold_left (readARP_packet ifi) p1 []) with (collect ifi p1).
  apply collect_from.
Qed.

Lemma collect_In (ifi : Interface) (packets : list Packet) (entry : arpTable) :
  In entry (collect ifi packets)
  <-> exists packet arp,
        In packet packets /\ qualifies ifi packet arp /\ entry = entry_of arp.
Proof.
  induction packets as [| packet rest IH] using rev_ind.
  - cbn. split; [intros [] | intros [p [arp [[] _]]]].
  - rewrite collect_snoc.
    destruct (readARP_packet_cases ifi (collect ifi rest) packet)
      as [[arp [Hq ->]] | [Hnone ->]].
    + rewrite in_app_iff, IH. split.
      * intros [[p [arp' [Hin Hrest]]] | [<- | []]].
        -- exists p, arp'. rewrite in_app_iff. tauto.
        -- exists packet, arp. rewrite in_app_iff. cbn. tauto.
      * intros [p [arp' [Hin [Hq' ->]]]]. apply in_app_iff in Hin.
        destruct Hin as [Hin | [<- | []]].
        -- left. exists p, arp'. tauto.
        -- right. left. destruct Hq as [Hl _]. destruct Hq' as [Hl' _]. congruence.
    + rewrite IH. split.
      * intros [p [arp [Hin Hrest]]]. exists p, arp. rewrite in_app_iff. tauto.
      * intros [p [arp [Hin [Hq' ->]]]]. apply in_app_iff in Hin.
        destruct Hin as [Hin | [<- | []]].
        -- exists p, arp. tauto.
        -- exfalso. exact (Hnone arp Hq').
Qed.

Lemma collect_length (ifi : Interface) (packets : list Packet) :
  (length (collect ifi packets) <= length packets)%nat.
Proof.
  induction packets as [| packet rest IH] using rev_ind; [cbn; lia |].
  rewrite collect_snoc, length_app. cbn.
  destruct (readARP_packet_cases ifi (collect ifi rest) packet)
    as [[arp [_ ->]] | [_ ->]]; rewrite ?length_app; cbn; lia.
Qed.

(** X10: the listener's table keeps the order of arrival and removes no
    duplicates: the entries of a run of packets followed by another are
    the entries of the first followed by those of the second.  An entry is
    in the table exactly when one of the packets is an ARP reply not sent
    by the interface itself, of which it is the source pair; at most one
    entry is made per packet. *)
Theorem X10_collect_in_order (ifi : Interface) :
  (forall p1 p2, collect ifi (p1 ++ p2) = collect ifi p1 ++ collect ifi p2)
  /\ (forall packets entry,
         In entry (collect ifi packets)
         <-> exists packet arp,
               In packet packets /\ qualifies ifi packet arp
               /\ entry = entry_of arp)
  /\ (forall packets, (length (collect ifi packets) <= length packets)%nat).
Proof.
  split; [apply collect_app |]. split; [apply collect_In | apply collect_length].
Qed.

Lemma run_heard {capture : Capture} (env : ScanEnv) (P : Packet -> Prop)
  (schedule : list event) :
  forall c,
    Forall P (heard c) -> Forall P (recv_packets schedule) ->
    Forall P (heard (run env c schedule)).
Proof.
  induction schedule as [| e rest IH]; intros c Hc Hs; [exact Hc |].
  change (run env c (e :: rest)) with (run env (step env c e) rest).
  destruct e as [| packet |]; cbn [recv_packets] in Hs.
  - apply IH; [| exact Hs]. cbn [step]. unfold step_coord, Scan_begin, set_co.
    destruct (co c) as [| h a [| ip r] | h err | h | h | h | h ret | h ret | ret |];
      try exact Hc.
    + destruct (Scan_prologue (envIface env) (envAddrs env)) as [[a | err] |];
        try exact Hc.
      destruct (envOpenLive env) as [h | err]; try exact Hc.
      destruct (ips a); exact Hc.
    + destruct (WritePacketData h (writeARP_frame (envIface env) a ip))
        as [h1 [err |]]; exact Hc.
  - inversion Hs as [| ? ? Hp Hrest]; subst. apply IH; [| exact Hrest].
    cbn [step]. unfold step_recv. destruct (li c); try exact Hc.
    cbn. apply Forall_app. split; [exact Hc | constructor; [exact Hp | constructor]].
  - apply IH; [| exact Hs]. cbn [step]. unfold step_stop.
    destruct (li c); try exact Hc.
    destruct (co c); try (destruct (stopClosed c)); exact Hc.
Qed.

Lemma collect_nothing (ifi : Interface) (packets : list Packet) :
  Forall (fun packet => forall arp, ~ qualifies ifi packet arp) packets ->
  collect ifi packets = [].
Proof.
  induction packets as [| packet rest IH] using rev_ind; intros Hall; [reflexivity |].
  apply Forall_app in Hall. destruct Hall as [Hrest Hlast].
  inversion Hlast as [| ? ? Hp _]; subst.
  rewrite collect_snoc, (IH Hrest). apply readARP_packet_drops, Hp.
Qed.

Lemma sentPacket_dropped (ifi : Interface) (addr : IPNet) (ip : IP) (arp : ARP) :
  ~ qualifies ifi (sentPacket ifi addr ip) arp.
Proof. intros [Hlayer [Hop _]]. injection Hlayer as <-. discriminate Hop. Qed.

(** X11: the scan never lists itself on account of its own probes: a
    request frame of [writeARP], read back by the listener, leaves the
    table as it is, and a scan during which the listener hears nothing but
    such frames returns an empty table. *)
Theorem X11_own_requests_dropped {capture : Capture} (env : ScanEnv)
  (addr : IPNet) :
  (forall tab ip,
      readARP_packet (envIface env) tab (sentPacket (envIface env) addr ip) = tab)
  /\ (forall schedule ret,
         Forall (fun packet => exists ip, packet = sentPacket (envIface env) addr ip)
                (recv_packets schedule) ->
         returned (Scan env schedule) = Some ret ->
         fst ret = []).
Proof.
  split.
  - intros tab ip. apply readARP_packet_drops. intros arp. apply sentPacket_dropped.
  - intros schedule ret Hown Hret.
    assert (Hheard : Forall (fun packet => forall arp, ~ qualifies (envIface env) packet arp)
                            (heard (Scan env schedule))).
    { apply run_heard; [constructor |].
      eapply Forall_impl; [| exact Hown].
      intros packet [ip ->] arp. apply sentPacket_dropped. }
    destruct (Scan_returned env schedule ret Hret)
      as [[Hfst _] | [_ Hread]]; [exact Hfst |].
    pose proof (Inv_Scan env schedule) as [Htab _].
    unfold read_ok in Hread. destruct (snd ret) as [e |].
    + destruct Hread as [_ [k [_ ->]]]. apply collect_nothing.
      apply Forall_forall. intros p Hin.
      apply (proj1 (Forall_forall _ _) Hheard).
      rewrite <- (firstn_skipn k (heard (Scan env schedule))).
      apply in_or_app. left. exact Hin.
    + destruct Hread as [_ <-]. rewrite Htab. apply collect_nothing, Hheard.
Qed.

Lemma X11_own_requests_dropped_witness :
  (exists ret,
      returned (Scan hostEnv
                  [Coord; Recv (sentPacket eth0 lanNet (ip4 10 0 0 9)); Coord;
                   Coord; RecvStop; Coord; Coord; Coord]) = Some ret
      /\ fst ret = [])
  /\ readARP_packet eth0 [peerEntry] (sentPacket eth0 lanNet (ip4 10 0 0 9))
     = [peerEntry].
Proof.
  destruct (X11_own_requests_dropped hostEnv lanNet) as [Hdrop Hscan].
  split.
  - eexists. split; [reflexivity |].
    apply (Hscan [Coord; Recv (sentPacket eth0 lanNet (ip4 10 0 0 9)); Coord; Coord;
                  RecvStop; Coord; Coord; Coord]).
    + constructor; [eexists; reflexivity | constructor].
    + reflexivity.
  - apply Hdrop.
Defined.

(** ** A scan always comes to an end *)

Section Progress.

Context {capture : Capture}.
Variable env : ScanEnv.







End Progress.






(** ** The life of the listener *)

Section ListenerLife.

Context {capture : Capture}.
Variable env : ScanEnv.

Lemma step_not_start (c : config) (e : event) :
  co c <> CStart -> co (step env c e) <> CStart.
Proof.
  intros Hco. destruct e as [| packet |]; cbn [step].
  - unfold step_coord.
    destruct (co c) as [| h a [| ip r] | h err | h | h | h | h ret | h ret | ret |]
      eqn:Hk; cbn; rewrite ?Hk; try discriminate; try congruence.
    destruct (WritePacketData h (writeARP_frame (envIface env) a ip))
      as [h1 [err |]]; cbn; discriminate.
  - unfold step_recv. destruct (li c); cbn; exact Hco.
  - unfold step_stop. destruct (li c); try exact Hco.
    destruct (co c) eqn:Hk; try discriminate;
      destruct (stopClosed c); cbn; rewrite ?Hk; congruence.
Qed.

Lemma idle_step (c : config) (e : event) :
  li c = LIdle -> co c <> CStart -> li (step env c e) = LIdle.
Proof.
  intros Hli Hco. destruct e as [| packet |]; cbn [step].
  - unfold step_coord.
    destruct (co c) as [| h a [| ip r] | h err | h | h | h | h ret | h ret | ret |]
      eqn:Hk; cbn; rewrite ?Hk; try exact Hli; try congruence.
    destruct (WritePacketData h (writeARP_frame (envIface env) a ip))
      as [h1 [err |]]; cbn; exact Hli.
  - unfold step_recv. rewrite Hli. exact Hli.
  - unfold step_stop. rewrite Hli. exact Hli.
Qed.

(** A listener that is not in its loop, before the scan or after its
    exit, is never in it again. *)
Lemma not_running_run (schedule : list event) :
  forall c,
    co c <> CStart -> li c <> LRun -> li (run env c schedule) <> LRun.
Proof.
  induction schedule as [| e rest IH]; intros c Hco Hli; [exact Hli |].
  change (run env c (e :: rest)) with (run env (step env c e) rest).
  apply IH; [apply step_not_start, Hco |].
  destruct (li c) eqn:Hl; [| contradiction |].
  - rewrite (idle_step c e Hl Hco). discriminate.
  - destruct (exit_step env c e Hl Hco) as [Hl' _]. rewrite Hl'. discriminate.
Qed.

Lemma step_heard (c : config) (e : event) :
  heard (step env c e)
  = heard c ++ match e, li c with
               | Recv packet, LRun => [packet]
               | _, _ => []
               end.
Proof.
  destruct e as [| packet |]; cbn [step].
  - rewrite app_nil_r. unfold step_coord, Scan_begin, set_co.
    destruct (co c) as [| h a [| ip r] | h err | h | h | h | h ret | h ret | ret |];
      try reflexivity.
    + destruct (Scan_prologue (envIface env) (envAddrs env)) as [[a | err] |];
        try reflexivity.
      destruct (envOpenLive env) as [h | err]; try reflexivity.
      destruct (ips a); reflexivity.
    + destruct (WritePacketData h (writeARP_frame (envIface env) a ip))
        as [h1 [err |]]; reflexivity.
  - unfold step_recv. destruct (li c); cbn; rewrite ?app_nil_r; reflexivity.
  - rewrite app_nil_r. unfold step_stop. destruct (li c); try reflexivity.
    destruct (co c); try (destruct (stopClosed c)); reflexivity.
Qed.

(** While the listener is in its loop it has heard every packet the
    schedule delivered since it was started. *)
Lemma running_heard (schedule : list event) :
  forall c,
    co c <> CStart ->
    li (run env c schedule) = LRun ->
    heard (run env c schedule) = heard c ++ recv_packets schedule.
Proof.
  induction schedule as [| e rest IH]; intros c Hco Hrun.
  - cbn. rewrite app_nil_r. reflexivity.
  - change (run env c (e :: rest)) with (run env (step env c e) rest) in *.
    rewrite (IH _ (step_not_start c e Hco) Hrun), step_heard.
    destruct e as [| packet |]; cbn [recv_packets]; rewrite ?app_nil_r; try reflexivity.
    destruct (li c) eqn:Hl.
    + exfalso. apply (not_running_run rest (step env c (Recv packet)));
        [apply step_not_start, Hco | | exact Hrun].
      rewrite (idle_step c _ Hl Hco). discriminate.
    + rewrite <- app_assoc. reflexivity.
    + exfalso. apply (not_running_run rest (step env c (Recv packet)));
        [apply step_not_start, Hco | | exact Hrun].
      destruct (exit_step env c (Recv packet) Hl Hco) as [Hl' _].
      rewrite Hl'. discriminate.
Qed.

Lemma Scan_begin_heard :
  heard (Scan_begin env init) = [] /\ co (Scan_begin env init) <> CStart.
Proof.
  unfold Scan_begin, set_co.
  destruct (Scan_prologue (envIface env) (envAddrs env)) as [[a | err] |];
    cbn; try (split; [reflexivity | discriminate]).
  destruct (envOpenLive env) as [h | err]; cbn;
    try (split; [reflexivity | discriminate]).
  destruct (ips a); cbn; split; (reflexivity || discriminate).
Qed.

Lemma Scan_heard (schedule : list event) :
  li (Scan env schedule) = LRun ->
  heard (Scan env schedule) = recv_packets (after_first_Coord schedule).
Proof.
  unfold Scan. induction schedule as [| e rest IH]; [discriminate |].
  destruct e as [| packet |].
  - change (run env init (Coord :: rest)) with (run env (Scan_begin env init) rest).
    destruct Scan_begin_heard as [Hheard Hco]. intros Hrun.
    rewrite (running_heard rest _ Hco Hrun), Hheard. reflexivity.
  - exact IH.
  - exact IH.
Qed.

(** A scan that returns without error has gone through the exchange on
    [stop], and returns what the listener had collected by then. *)
Lemma success_split (schedule : list event) (tbl : arpTables) :
  returned (Scan env schedule) = Some (tbl, None) ->
  exists before after h,
    schedule = before ++ RecvStop :: after
    /\ co (Scan env before) = CSend h
    /\ li (Scan env before) = LRun
    /\ tbl = collect (envIface env) (heard (Scan env before)).
Proof.
  intros Hret.
  assert (Hafter : after_rendezvous (co (Scan env schedule))).
  { unfold returned in Hret. destruct (co (Scan env schedule)); try discriminate.
    injection Hret as ->. exact I. }
  destruct (rendezvous_split env schedule Hafter)
    as [before [after [h [Hsched [Hco Hli]]]]].
  exists before, after, h. repeat split; try assumption.
  assert (Htbl : table (Scan env schedule) = tbl).
  { pose proof (Inv_Scan env schedule) as [_ HI].
    unfold returned in Hret. destruct (co (Scan env schedule)); try discriminate.
    injection Hret as ->.
    destruct HI as [[_ [_ [_ [_ [e [He _]]]]]] | [_ [_ Hread]]];
      [discriminate He | unfold read_ok in Hread; cbn in Hread; tauto]. }
  rewrite <- Htbl, Hsched.
  change (before ++ RecvStop :: after) with (before ++ [RecvStop] ++ after).
  rewrite app_assoc, Scan_app.
  assert (Hstep : Scan env (before ++ [RecvStop])
                  = mkConfig (CSent h) LExit (table (Scan env before))
                      (stopClosed (Scan env before)) (wire (Scan env before))
                      (heard (Scan env before))).
  { rewrite Scan_app. cbn. unfold step_stop. rewrite Hli, Hco. reflexivity. }
  destruct (exit_run env after (Scan env (before ++ [RecvStop]))) as [_ Htab];
    [rewrite Hstep; reflexivity | rewrite Hstep; discriminate |].
  rewrite Htab, Hstep. apply (Inv_Scan env before).
Qed.

Lemma exit_cause_step (c : config) (e : event) :
  Inv env c ->
  (li c = LExit -> stopClosed c = true \/ after_rendezvous (co c)) ->
  li (step env c e) = LExit ->
  stopClosed (step env c e) = true \/ after_rendezvous (co (step env c e)).
Proof.
  intros [_ HI] HP. destruct e as [| packet |]; cbn [step].
  - unfold step_coord.
    destruct (co c) as [| h a [| ip r] | h err | h | h | h | h [t [e |]]
                        | h [t [e |]] | [t [e |]] |] eqn:Hk;
      cbn; rewrite ?Hk; cbn; auto; try (intros Hl; destruct (HP Hl); auto; contradiction).
    + destruct HI as [Hl _]. unfold Scan_begin, set_co.
      destruct (Scan_prologue (envIface env) (envAddrs env)) as [[a | err] |];
        cbn; try congruence.
      destruct (envOpenLive env) as [h | err]; cbn; try congruence.
      destruct (ips a); cbn; discriminate.
    + destruct (WritePacketData h (writeARP_frame (envIface env) a ip))
        as [h1 [err |]]; cbn; intros Hl; destruct (HP Hl); auto; contradiction.
  - unfold step_recv. clear HI. destruct (li c) eqn:Hl.
    + rewrite Hl. discriminate.
    + cbn. discriminate.
    + intros _. apply HP. reflexivity.
  - unfold step_stop. clear HI. destruct (li c) eqn:Hl.
    + rewrite Hl. discriminate.
    + clear HP. destruct (co c) eqn:Hk; cbn; try (right; exact I);
        destruct (stopClosed c) eqn:Hs; cbn; rewrite ?Hl, ?Hs; auto; discriminate.
    + intros _. apply HP. reflexivity.
Qed.

Lemma exit_cause (schedule : list event) :
  li (Scan env schedule) = LExit ->
  stopClosed (Scan env schedule) = true
  \/ after_rendezvous (co (Scan env schedule)).
Proof.
  induction schedule as [| e rest IH] using rev_ind; [discriminate |].
  rewrite Scan_app. cbn [run fold_left].
  apply exit_cause_step; [apply Inv_Scan | exact IH].
Qed.

End ListenerLife.

(** X13: the listener leaves its loop only by receiving from [stop]: if it
    has left, the coordinator's [stop <- true] has completed or [stop] has
    been closed.  And no listener is left behind: once [Scan] has returned
    after starting one, [stop] is closed and the listener's next receive
    from [stop] ends it. *)
Theorem X13_listener_life {capture : Capture} (env : ScanEnv) (schedule : list event) :
  (li (Scan env schedule) = LExit ->
   stopClosed (Scan env schedule) = true
   \/ after_rendezvous (co (Scan env schedule)))
  /\ (forall ret,
         returned (Scan env schedule) = Some ret ->
         li (Scan env schedule) = LIdle
         \/ (stopClosed (Scan env schedule) = true
             /\ li (Scan env (schedule ++ [RecvStop])) = LExit)).
Proof.
  split; [apply exit_cause |].
  intros ret Hret. pose proof (Inv_Scan env schedule) as [_ HI].
  unfold returned in Hret.
  destruct (co (Scan env schedule)) eqn:Hco; try discriminate.
  injection Hret as ->.
  destruct HI as [[Hl _] | [Hstop [_ Hread]]]; [left; exact Hl | right].
  split; [exact Hstop |].
  rewrite Scan_app. cbn. unfold step_stop. rewrite Hco, Hstop.
  destruct (li (Scan env schedule)) eqn:Hl; cbn; try reflexivity; try exact Hl.
  unfold read_ok in Hread. destruct (snd ret); destruct Hread; congruence.
Qed.

Lemma X13_listener_life_witness :
  li (Scan (lanEnv 0) failingSchedule) = LIdle
  \/ (stopClosed (Scan (lanEnv 0) failingSchedule) = true
      /\ li (Scan (lanEnv 0) (failingSchedule ++ [RecvStop])) = LExit).
Proof.
  apply (proj2 (X13_listener_life (lanEnv 0) failingSchedule)
               ([], Some errNetworkDown)).
  vm_compute. reflexivity.
Defined.

(** X14: the table of a scan that returns without error is made of the
    packets the packet source delivered between the start of the listener,
    at the coordinator's first turn, and the exchange on [stop]: their
    entries, in the order of arrival. *)
Theorem X14_table_of_a_scan {capture : Capture} (env : ScanEnv)
  (schedule : list event) (tbl : arpTables) :
  returned (Scan env schedule) = Some (tbl, None) ->
  exists before after h,
    schedule = before ++ RecvStop :: after
    /\ co (Scan env before) = CSend h
    /\ tbl = collect (envIface env) (recv_packets (after_first_Coord before)).
Proof.
  intros Hret.
  destruct (success_split env schedule tbl Hret)
    as [before [after [h [Hsched [Hco [Hli Htbl]]]]]].
  exists before, after, h. repeat split; try assumption.
  rewrite Htbl, (Scan_heard env before Hli). reflexivity.
Qed.

Lemma X14_table_of_a_scan_witness :
  exists before after h,
    goodSchedule = before ++ RecvStop :: after
    /\ co (Scan (lanEnv 300) before) = CSend h
    /\ [peerEntry]
       = collect eth0 (recv_packets (after_first_Coord before)).
Proof.
  apply (X14_table_of_a_scan (lanEnv 300) goodSchedule [peerEntry]).
  vm_compute. reflexivity.
Defined.

(** ** What a scan has written and what it returns *)

(** X15: a scan that returns without error has made the full sweep: the
    frames it wrote are the requests for the candidates of [ips], one for
    each, in their order, and at most 65535 of them. *)
Theorem X15_full_sweep {capture : Capture} (env : ScanEnv) (handle : Handle)
  (addr : IPNet) (schedule : list event) (tbl : arpTables) :
  Scan_prologue (envIface env) (envAddrs env) = Return (Ok addr) ->
  envOpenLive env = Ok handle ->
  returned (Scan env schedule) = Some (tbl, None) ->
  exists candidates,
    ips addr = Return candidates
    /\ wire (Scan env schedule)
       = map (writeARP_frame (envIface env) addr) candidates
    /\ Z.of_nat (length (wire (Scan env schedule))) <= 65535.
Proof.
  intros Hpro Hopen Hret.
  destruct (Scan_prologue_Ok _ _ _ Hpro)
    as [_ [a0 [a1 [a2 [a3 [m2 [m3 [Haddr _]]]]]]]].
  destruct (ips_slash16 a0 a1 a2 a3 m2 m3) as [candidates [Hips Hlen]].
  rewrite <- Haddr in Hips.
  assert (Hst : started env handle addr candidates) by (repeat split; assumption).
  destruct (Scan_returned_started env _ _ _ Hst schedule _ Hret) as [[h' Hloop] _].
  apply writeARP_loop_spec in Hloop. cbn in Hloop. destruct Hloop as [Hwire _].
  exists candidates. split; [exact Hips |]. split; [exact Hwire |].
  rewrite Hwire, length_map. exact Hlen.
Qed.

Lemma X15_full_sweep_witness :
  exists candidates,
    ips lanNet = Return candidates
    /\ wire (Scan (lanEnv 300) goodSchedule)
       = map (@writeARP_frame budgetCapture eth0 lanNet) candidates
    /\ Z.of_nat (length (wire (Scan (lanEnv 300) goodSchedule))) <= 65535.
Proof.
  apply (X15_full_sweep (lanEnv 300) 300%nat lanNet goodSchedule [peerEntry]).
  - reflexivity.
  - reflexivity.
  - vm_compute. reflexivity.
Defined.

Section Growth.

Context {capture : Capture}.
Variable env : ScanEnv.

Lemma step_grows (c : config) (e : event) :
  exists entries frames,
    table (step env c e) = table c ++ entries
    /\ wire (step env c e) = wire c ++ frames.
Proof.
  destruct e as [| packet |]; cbn [step].
  - unfold step_coord, Scan_begin, set_co.
    destruct (co c) as [| h a [| ip r] | h err | h | h | h | h ret | h ret | ret |];
      try (exists [], []; cbn; rewrite !app_nil_r; split; reflexivity).
    + destruct (Scan_prologue (envIface env) (envAddrs env)) as [[a | err] |];
        try (exists [], []; cbn; rewrite !app_nil_r; split; reflexivity).
      destruct (envOpenLive env) as [h | err];
        try (exists [], []; cbn; rewrite !app_nil_r; split; reflexivity).
      destruct (ips a); exists [], []; cbn; rewrite !app_nil_r; split; reflexivity.
    + destruct (WritePacketData h (writeARP_frame (envIface env) a ip))
        as [h1 [err |]];
        exists [], [writeARP_frame (envIface env) a ip]; cbn;
        rewrite app_nil_r; split; reflexivity.
  - unfold step_recv. destruct (li c);
      try (exists [], []; rewrite !app_nil_r; split; reflexivity).
    cbn. destruct (readARP_packet_cases (envIface env) (table c) packet)
      as [[arp [_ ->]] | [_ ->]].
    + exists [entry_of arp], []. rewrite app_nil_r. split; reflexivity.
    + exists [], []. rewrite !app_nil_r. split; reflexivity.
  - unfold step_stop. exists [], []. rewrite !app_nil_r.
    destruct (li c); try (split; reflexivity).
    destruct (co c); try (destruct (stopClosed c)); split; reflexivity.
Qed.

Lemma run_grows (schedule : list event) :
  forall c,
    exists entries frames,
      table (run env c schedule) = table c ++ entries
      /\ wire (run env c schedule) = wire c ++ frames.
Proof.
  induction schedule as [| e rest IH]; intros c.
  - exists [], []. cbn. rewrite !app_nil_r. split; reflexivity.
  - change (run env c (e :: rest)) with (run env (step env c e) rest).
    destruct (IH (step env c e)) as [t2 [w2 [Ht2 Hw2]]].
    destruct (step_grows c e) as [t1 [w1 [Ht1 Hw1]]].
    exists (t1 ++ t2), (w1 ++ w2).
    rewrite Ht2, Hw2, Ht1, Hw1, !app_assoc. split; reflexivity.
Qed.

End Growth.

(** X16: both the result table and the sequence of frames written only
    ever grow at their end: whatever the two goroutines do next, no entry
    once appended and no frame once written is removed, changed or moved. *)
Theorem X16_append_only {capture : Capture} (env : ScanEnv)
  (schedule more : list event) :
  exists entries frames,
    table (Scan env (schedule ++ more)) = table (Scan env schedule) ++ entries
    /\ wire (Scan env (schedule ++ more)) = wire (Scan env schedule) ++ frames.
Proof. rewrite Scan_app. apply run_grows. Qed.



(** ** Errors of the host *)

(** X18: when the host cannot list its interfaces, [IfaceToName] hands the
    host's error on for "all", with no name; for any other input the
    host's error is not shown: the input is refused as an unknown
    interface, the error naming its first piece. *)
Theorem X18_IfaceToName_host_error (h : Host) (e : error) :
  Interfaces h = Err e ->
  IfaceToName h "all" = ([], Some e)
  /\ forall names,
       names <> "all"%string ->
       exists first rest,
         Split names "," = first :: rest
         /\ IfaceToName h names
            = (first :: rest, Some (errUnknownInterface first)).
Proof.
  intros Herr. split.
  - unfold IfaceToName. cbn. rewrite Herr. reflexivity.
  - intros names Hne. rewrite IfaceToName_other by exact Hne.
    pose proof (Split_not_nil names ","%char) as Hnn.
    destruct (Split names ",") as [| first rest]; [congruence |].
    exists first, rest. split; [reflexivity |]. cbn.
    assert (Hunknown : ~ known h first).
    { intros [_ [ifaces [Hok _]]]. congruence. }
    destruct (InterfaceByName_unknown h first Hunknown) as [e' ->]. reflexivity.
Qed.

Lemma X18_IfaceToName_host_error_witness :
  IfaceToName downHost "all" = ([], Some errNetlink)
  /\ exists first rest,
       Split "eth0,eth1" "," = first :: rest
       /\ IfaceToName downHost "eth0,eth1"
          = (first :: rest, Some (errUnknownInterface first)).
Proof.
  destruct (X18_IfaceToName_host_error downHost errNetlink eq_refl) as [Hall Hother].
  split; [exact Hall |]. apply Hother. discriminate.
Defined.

Lemma early_idle {capture : Capture} (env : ScanEnv) (e : error)
  (schedule : list event) :
  early env e -> li (Scan env schedule) = LIdle.
Proof.
  intros He. induction schedule as [| ev rest IH] using rev_ind; [reflexivity |].
  rewrite Scan_app. cbn [run fold_left].
  destruct ev as [| packet |]; cbn [step].
  - unfold step_coord.
    destruct (co (Scan env rest))
      as [| h a [| ip r] | h err | h | h | h | h ret | h ret | ret |];
      try exact IH.
    + unfold Scan_begin, set_co. destruct He as [Hp | [a [Hp Ho]]]; rewrite Hp.
      * exact IH.
      * rewrite Ho. exact IH.
    + destruct (WritePacketData h (writeARP_frame (envIface env) a ip))
        as [h1 [err |]]; exact IH.
  - unfold step_recv. rewrite IH. exact IH.
  - unfold step_stop. rewrite IH. exact IH.
Qed.

(** X19: an error of [a.iface.Addrs()] or of [pcap.OpenLive] is returned
    by [Scan] as it is, with an empty table; in both cases no frame is
    written and no listener is started, whatever the schedule. *)
Theorem X19_Scan_host_errors {capture : Capture} (env : ScanEnv) (e : error)
  (schedule : list event) :
  envAddrs env = Err e
  \/ (exists addr,
        Scan_prologue (envIface env) (envAddrs env) = Return (Ok addr)
        /\ envOpenLive env = Err e) ->
  returned (Scan env [Coord]) = Some ([], Some e)
  /\ wire (Scan env schedule) = []
  /\ li (Scan env schedule) = LIdle
  /\ forall ret, returned (Scan env schedule) = Some ret -> ret = ([], Some e).
Proof.
  intros Hcause.
  assert (He : early env e).
  { destruct Hcause as [Haddrs | Hopen]; [left | right; exact Hopen].
    unfold Scan_prologue. rewrite Haddrs. reflexivity. }
  destruct (early_silent env e schedule He) as [Hwire Hret].
  split; [apply early_returns, He |]. split; [exact Hwire |].
  split; [apply (early_idle env e schedule He) | exact Hret].
Qed.

Lemma X19_Scan_host_errors_witness :
  returned (Scan noAddrsEnv [Coord]) = Some ([], Some errNetlink)
  /\ returned (Scan noOpenEnv [Coord]) = Some ([], Some errPermission)
  /\ wire (Scan noOpenEnv [Recv peerReply; Coord; Recv peerReply; Coord]) = [].
Proof.
  split; [| split].
  - apply (X19_Scan_host_errors noAddrsEnv errNetlink []). left. reflexivity.
  - apply (X19_Scan_host_errors noOpenEnv errPermission []).
    right. eexists. split; reflexivity.
  - apply (X19_Scan_host_errors noOpenEnv errPermission).
    right. eexists. split; reflexivity.
Defined.
